(** * txngo: record codec, write-ahead log protocol and transaction engine

    A shallow embedding of [main.go].  Go values are modelled as follows.

    - [uint8] is [byte]; [int] is [Z] (64 bits wide on the supported
      platforms: every integer computed below is a sum of at most three
      slice lengths or of header fields below [2^32], so it never wraps);
      conversions [uint8(x)] and [uint32(x)] are written out as reductions
      modulo [2^8] and [2^32].
    - A [[]byte] is a [list byte]; a nil slice and an empty slice are both
      [[]].  A function that writes through a sub-slice [buf[k:]] is run on
      [drop k buf] and its result is spliced back behind [take k buf], which
      is what sharing the backing array amounts to.
    - A [string] is a [String.string]: a sequence of 8-bit characters.
    - A run-time panic (index or slice bounds out of range, [log.Panic]) is
      the [Panic] outcome of the [go] monad.
    - A [map[string]T] is a [gmap string T]; [range] over a map visits the
      entries in an order chosen by the run time, modelled by [shuffle]
      driven by a seed supplied by the environment.
    - The [*os.File] of the write-ahead log is the byte string appended so
      far together with a script of outcomes of the coming system calls. *)

From Stdlib Require Import ZArith Lia List Strings.Byte Strings.String.
From stdpp Require Import gmap strings list fin_maps.

Local Open Scope Z_scope.

(** ** Outcomes of Go code *)

Inductive go (A : Type) : Type :=
| Done (a : A)
| Panic (msg : string).
Arguments Done {A} a.
Arguments Panic {A} msg.

#[global] Instance go_ret : MRet go := fun A a => Done a.
#[global] Instance go_bind : MBind go := fun A B f m =>
  match m with
  | Done a => f a
  | Panic msg => Panic msg
  end.

(** ** Errors *)

Inductive error : Type :=
| ErrExist                                  (* "record already exists" *)
| ErrNotExist                               (* "record not exists" *)
| ErrBufferShort                            (* "buffer size is not enough to deserialize" *)
| ErrUnsupportedAction (a : byte)           (* RecordLog.Deserialize, default case *)
| ErrUnexpectedWriteSetAction (a : byte)    (* Txn.Read, default case *)
| ErrUnexpectedAction (a : byte)            (* Txn.Commit, default case *)
| ErrIO (code : nat).                       (* an error of the operating system *)

#[global] Instance byte_eq_dec : EqDecision byte := Byte.byte_eq_dec.
#[global] Instance error_eq_dec : EqDecision error.
Proof. solve_decision. Defined.

(** ** Bytes and slices *)

Definition byte_to_Z (b : byte) : Z := Z.of_N (Byte.to_N b).

(** [uint8(z)]: the low eight bits. *)
Definition u8 (z : Z) : byte :=
  default x00 (Byte.of_N (Z.to_N (z mod 256))).

(** [uint32(z)]: the low thirty-two bits. *)
Definition u32 (z : Z) : Z := z mod 2 ^ 32.

Definition len {A} (l : list A) : Z := Z.of_nat (length l).

(** [buf[i]] *)
Definition index (buf : list byte) (i : Z) : go byte :=
  if bool_decide (0 ≤ i < len buf)
  then match buf !! Z.to_nat i with
       | Some b => Done b
       | None => Panic "index out of range"
       end
  else Panic "index out of range".

(** [buf[i] = x] *)
Definition index_set (buf : list byte) (i : Z) (x : byte) : go (list byte) :=
  if bool_decide (0 ≤ i < len buf)
  then Done (<[Z.to_nat i := x]> buf)
  else Panic "index out of range".

(** [buf[lo:hi]], read only. *)
Definition slice (buf : list byte) (lo hi : Z) : go (list byte) :=
  if bool_decide (0 ≤ lo ≤ hi ∧ hi ≤ len buf)
  then Done (take (Z.to_nat (hi - lo)) (drop (Z.to_nat lo) buf))
  else Panic "slice bounds out of range".

(** [f(buf[lo:])] where [f] writes through the sub-slice. *)
Definition with_slice_from {R} (lo : Z)
    (f : list byte → go (list byte * R)) (buf : list byte) : go (list byte * R) :=
  if bool_decide (0 ≤ lo ≤ len buf)
  then '(sub, r) ← f (drop (Z.to_nat lo) buf);
       Done (take (Z.to_nat lo) buf ++ sub, r)
  else Panic "slice bounds out of range".

(** [copy(dst, src)]: the new contents of [dst]. *)
Definition copy (dst src : list byte) : list byte :=
  let n := Nat.min (length dst) (length src) in
  take n src ++ drop n dst.

(** [binary.BigEndian.PutUint32(b, v)] *)
Definition PutUint32 (b : list byte) (v : Z) : go (list byte * unit) :=
  if bool_decide (len b < 4) then Panic "index out of range"
  else Done (<[3%nat := u8 v]>
            (<[2%nat := u8 (v ≫ 8)]>
            (<[1%nat := u8 (v ≫ 16)]>
            (<[0%nat := u8 (v ≫ 24)]> b))), tt).

(** [binary.BigEndian.Uint32(b)] *)
Definition Uint32 (b : list byte) : go Z :=
  match b with
  | b0 :: b1 :: b2 :: b3 :: _ =>
      Done (Z.lor (Z.lor (Z.lor (byte_to_Z b3) (byte_to_Z b2 ≪ 8))
                         (byte_to_Z b1 ≪ 16))
                  (byte_to_Z b0 ≪ 24))
  | _ => Panic "index out of range"
  end.

(** ** Action tags *)

Definition LInsert : byte := x01.
Definition LDelete : byte := x02.
Definition LUpdate : byte := x03.
Definition LRead : byte := x04.
Definition LCommit : byte := x05.
Definition LAbort : byte := x06.

(** ** Record *)

Module Record.

Record t : Type := mk { Key : string; Value : list byte }.

Definition zero : t := {| Key := EmptyString; Value := [] |}.

(** [func (r *Record) Serialize(buf []byte) (int, error)]: the buffer after
    the call and the two results. *)
Definition Serialize (r : t) (buf : list byte) : go (list byte * (Z * option error)) :=
  let key := list_byte_of_string (Key r) in
  let value := Value r in
  let total := 5 + len key + len value in
  if bool_decide (len buf < total) then Done (buf, (0, Some ErrBufferShort))
  else
    buf ← index_set buf 0 (u8 (len key));
    '(buf, _) ← with_slice_from 1 (λ b, PutUint32 b (u32 (len (Value r)))) buf;
    '(buf, _) ← with_slice_from 5 (λ b, Done (copy b key, tt)) buf;
    '(buf, _) ← with_slice_from (5 + len key) (λ b, Done (copy b (Value r), tt)) buf;
    Done (buf, (total, None)).

(** [func (r *Record) Deserialize(buf []byte) (int, error)]: the receiver
    after the call and the two results.  [keyLen] is a [uint8], so the sum
    [5+keyLen] of the two slice expressions is computed modulo [2^8], while
    [total] is computed on [int]. *)
Definition Deserialize (r : t) (buf : list byte) : go (t * (Z * option error)) :=
  if bool_decide (len buf < 5) then Done (r, (0, Some ErrBufferShort))
  else
    keyLen ← index buf 0;
    hdr ← slice buf 1 (len buf);
    valueLen ← Uint32 hdr;
    let total := 5 + byte_to_Z keyLen + valueLen in
    if bool_decide (len buf < total) then Done (r, (0, Some ErrBufferShort))
    else
      let end_of_key := byte_to_Z (u8 (5 + byte_to_Z keyLen)) in
      k ← slice buf 5 end_of_key;
      let r := {| Key := string_of_list_byte k; Value := Value r |} in
      let v := replicate (Z.to_nat valueLen) x00 in
      src ← slice buf end_of_key total;
      let r := {| Key := Key r; Value := copy v src |} in
      Done (r, (total, None)).

End Record.

(** ** RecordLog *)

Module RecordLog.

Record t : Type := mk { Action : byte; Record : Record.t }.

Definition Key (r : t) : string := Record.Key (Record r).
Definition Value (r : t) : list byte := Record.Value (Record r).

(** [func (r *RecordLog) Serialize(buf []byte) (int, error)] *)
Definition Serialize (r : t) (buf : list byte) : go (list byte * (Z * option error)) :=
  if bool_decide (len buf < 1) then Done (buf, (0, Some ErrBufferShort))
  else if bool_decide (byte_to_Z (Action r) > byte_to_Z LRead) then
    buf ← index_set buf 0 (Action r);
    Done (buf, (1, None))
  else
    '(buf, (n, err)) ← with_slice_from 1 (Record.Serialize (Record r)) buf;
    match err with
    | Some e => Done (buf, (0, Some e))
    | None =>
        buf ← index_set buf 0 (Action r);
        Done (buf, (1 + n, None))
    end.

(** [func (r *RecordLog) Deserialize(buf []byte) (int, error)]: the receiver
    after the call and the two results.  [r.Action] is assigned before the
    [switch], so it is overwritten on the error returns as well. *)
Definition Deserialize (r : t) (buf : list byte) : go (t * (Z * option error)) :=
  if bool_decide (len buf < 1) then Done (r, (0, Some ErrBufferShort))
  else
    a ← index buf 0;
    let r := {| Action := a; Record := Record r |} in
    if decide (Action r = LCommit) then Done (r, (1, None))
    else if decide (Action r = LInsert ∨ Action r = LUpdate ∨ Action r = LDelete) then
      sub ← slice buf 1 (len buf);
      '(rec, (n, err)) ← Record.Deserialize (Record r) sub;
      let r := {| Action := Action r; Record := rec |} in
      match err with
      | Some e => Done (r, (0, Some e))
      | None => Done (r, (1 + n, None))
      end
    else Done (r, (0, Some (ErrUnsupportedAction (Action r)))).

End RecordLog.

(** ** The write-ahead log file *)

(** Outcome of one system call on the file: success, or failure with the
    error [ErrIO code] after [n] bytes went out. *)
Inductive io_outcome : Type :=
| IoOk
| IoErr (n : nat) (code : nat).

Module File.

(** [data]: the bytes appended so far (the file is opened with [O_APPEND]);
    [script]: what the coming calls will meet, success once it runs out. *)
Record t : Type := mk { data : list byte; script : list io_outcome }.

(** [func (f *File) Write(b []byte) (n int, err error)] *)
Definition Write (f : t) (b : list byte) : t * (Z * option error) :=
  match script f with
  | [] | IoOk :: _ =>
      ({| data := data f ++ b; script := tail (script f) |}, (len b, None))
  | IoErr n code :: rest =>
      ({| data := data f ++ take n b; script := rest |},
       (len (take n b), Some (ErrIO code)))
  end.

(** [func (f *File) Sync() error] *)
Definition Sync (f : t) : t * option error :=
  match script f with
  | [] | IoOk :: _ => ({| data := data f; script := tail (script f) |}, None)
  | IoErr _ code :: rest => ({| data := data f; script := rest |}, Some (ErrIO code))
  end.

End File.

(** ** Iteration over a map *)

(** The order of a [range] over a map is the run time's choice.  Every
    element is put at a position named by the seed, so that every
    arrangement of the entries is produced by some seed. *)
Fixpoint shuffle {A} (seed : list nat) (l : list A) : list A :=
  match l with
  | [] => []
  | x :: l' =>
      let r := shuffle (tail seed) l' in
      let i := (hd 0%nat seed `mod` S (length r))%nat in
      take i r ++ x :: drop i r
  end.

Definition range {V} (seed : list nat) (m : gmap string V) : list (string * V) :=
  shuffle seed (map_to_list m).

(** ** Txn *)

Module Txn.

Record t : Type := mk {
  wal : File.t;
  db : gmap string Record.t;
  writeSet : gmap string RecordLog.t
}.

Definition NewTxn (wal : File.t) : t :=
  {| wal := wal; db := ∅; writeSet := ∅ |}.

Definition clone (v : list byte) : list byte := copy (replicate (length v) x00) v.

(** [func (txn *Txn) Read(key string) ([]byte, error)] *)
Definition Read (txn : t) (key : string) : list byte * option error :=
  match writeSet txn !! key with
  | Some r =>
      if decide (RecordLog.Action r = LDelete) then ([], Some ErrNotExist)
      else if decide (RecordLog.Action r = LInsert ∨ RecordLog.Action r = LUpdate)
      then (RecordLog.Value r, None)
      else ([], Some (ErrUnexpectedWriteSetAction (RecordLog.Action r)))
  | None =>
      match db txn !! key with
      | None => ([], Some ErrNotExist)
      | Some r => (Record.Value r, None)
      end
  end.

(** [func (txn *Txn) Insert(key string, value []byte) error] *)
Definition Insert (txn : t) (key : string) (value : list byte) : t * option error :=
  match writeSet txn !! key with
  | Some r =>
      if decide (RecordLog.Action r ≠ LDelete) then (txn, Some ErrExist)
      else
        let r := {| RecordLog.Action := LUpdate;
                    RecordLog.Record := {| Record.Key := RecordLog.Key r;
                                           Record.Value := clone value |} |} in
        ({| wal := wal txn; db := db txn;
            writeSet := <[RecordLog.Key r := r]> (writeSet txn) |}, None)
  | None =>
      match db txn !! key with
      | Some _ => (txn, Some ErrExist)
      | None =>
          let value := clone value in
          ({| wal := wal txn; db := db txn;
              writeSet := <[key := {| RecordLog.Action := LInsert;
                                      RecordLog.Record := {| Record.Key := key;
                                                             Record.Value := value |} |}]>
                            (writeSet txn) |}, None)
      end
  end.

(** [func (txn *Txn) Update(key string, value []byte) error] *)
Definition Update (txn : t) (key : string) (value : list byte) : t * option error :=
  match writeSet txn !! key with
  | Some r =>
      if decide (RecordLog.Action r = LDelete) then (txn, Some ErrNotExist)
      else
        let r := {| RecordLog.Action := RecordLog.Action r;
                    RecordLog.Record := {| Record.Key := RecordLog.Key r;
                                           Record.Value := clone value |} |} in
        ({| wal := wal txn; db := db txn;
            writeSet := <[RecordLog.Key r := r]> (writeSet txn) |}, None)
  | None =>
      match db txn !! key with
      | None => (txn, Some ErrNotExist)
      | Some r =>
          ({| wal := wal txn; db := db txn;
              writeSet := <[Record.Key r := {| RecordLog.Action := LUpdate;
                                               RecordLog.Record := {| Record.Key := Record.Key r;
                                                                      Record.Value := clone value |} |}]>
                            (writeSet txn) |}, None)
      end
  end.

(** [func (txn *Txn) Delete(key string) error] *)
Definition Delete (txn : t) (key : string) : t * option error :=
  match writeSet txn !! key with
  | Some r =>
      if decide (RecordLog.Action r = LDelete) then (txn, Some ErrNotExist)
      else if decide (RecordLog.Action r = LInsert) then
        ({| wal := wal txn; db := db txn; writeSet := delete key (writeSet txn) |}, None)
      else
        let r := {| RecordLog.Action := LDelete;
                    RecordLog.Record := {| Record.Key := RecordLog.Key r;
                                           Record.Value := [] |} |} in
        ({| wal := wal txn; db := db txn;
            writeSet := <[RecordLog.Key r := r]> (writeSet txn) |}, None)
  | None =>
      match db txn !! key with
      | None => (txn, Some ErrNotExist)
      | Some r =>
          ({| wal := wal txn; db := db txn;
              writeSet := <[Record.Key r := {| RecordLog.Action := LDelete;
                                               RecordLog.Record := {| Record.Key := Record.Key r;
                                                                      Record.Value := [] |} |}]>
                            (writeSet txn) |}, None)
      end
  end.

(** The first loop of [Commit]: every entry is serialized at the start of
    the buffer ([i] stays [0]) and written out.  The result is the file, the
    buffer and the error the loop returned with, if any. *)
Fixpoint write_loop (entries : list (string * RecordLog.t)) (wal : File.t)
    (buf : list byte) : go (File.t * list byte * option error) :=
  match entries with
  | [] => Done (wal, buf, None)
  | (_, r) :: rest =>
      '(buf, (n, err)) ← with_slice_from 0 (RecordLog.Serialize r) buf;
      if decide (err = Some ErrBufferShort) then Done (wal, buf, err)
      else
        b ← slice buf 0 n;
        let '(wal, (_, err)) := File.Write wal b in
        match err with
        | Some e => Done (wal, buf, Some e)
        | None => write_loop rest wal buf
        end
  end.

(** The second loop of [Commit]: the write-back of the write-set to the
    db.  The result is the db, the write-set and the error the loop returned
    with, if any. *)
Fixpoint apply_loop (entries : list (string * RecordLog.t))
    (db : gmap string Record.t) (writeSet : gmap string RecordLog.t)
    : gmap string Record.t * gmap string RecordLog.t * option error :=
  match entries with
  | [] => (db, writeSet, None)
  | (key, rlog) :: rest =>
      if decide (RecordLog.Action rlog = LInsert) then
        apply_loop rest (<[RecordLog.Key rlog := RecordLog.Record rlog]> db)
                   (delete key writeSet)
      else if decide (RecordLog.Action rlog = LUpdate) then
        let r := default Record.zero (db !! RecordLog.Key rlog) in
        let r := {| Record.Key := Record.Key r; Record.Value := RecordLog.Value rlog |} in
        apply_loop rest (<[RecordLog.Key rlog := r]> db) (delete key writeSet)
      else if decide (RecordLog.Action rlog = LDelete) then
        apply_loop rest (delete (RecordLog.Key rlog) db) (delete key writeSet)
      else (db, writeSet, Some (ErrUnexpectedAction (RecordLog.Action rlog)))
  end.

(** [func (txn *Txn) Commit() error]; [seed1] and [seed2] drive the two
    [range] loops. *)
Definition Commit (seed1 seed2 : list nat) (txn : t) : go (t * option error) :=
  if bool_decide (size (writeSet txn) = 0%nat) then Done (txn, None)
  else
    let buf := replicate 4096 x00 in
    '(wal, buf, err) ← write_loop (range seed1 (writeSet txn)) (wal txn) buf;
    match err with
    | Some e => Done ({| wal := wal; db := db txn; writeSet := writeSet txn |}, Some e)
    | None =>
        '(buf, (n, err)) ←
          with_slice_from 0
            (RecordLog.Serialize {| RecordLog.Action := LCommit;
                                    RecordLog.Record := Record.zero |}) buf;
        match err with
        | Some _ => Panic "log.Panic"
        | None =>
            b ← slice buf 0 n;
            let '(wal, (_, err)) := File.Write wal b in
            match err with
            | Some e => Done ({| wal := wal; db := db txn; writeSet := writeSet txn |}, Some e)
            | None =>
                let '(wal, err) := File.Sync wal in
                match err with
                | Some e =>
                    Done ({| wal := wal; db := db txn; writeSet := writeSet txn |}, Some e)
                | None =>
                    let '(db, writeSet, err) :=
                      apply_loop (range seed2 (writeSet txn)) (db txn) (writeSet txn) in
                    Done ({| wal := wal; db := db; writeSet := writeSet |}, err)
                end
            end
        end
    end.

(** [func (txn *Txn) Abort()] *)
Definition Abort (txn : t) : t :=
  {| wal := wal txn; db := db txn;
     writeSet := foldr (λ kv ws, delete kv.1 ws) (writeSet txn) (map_to_list (writeSet txn)) |}.

End Txn.

(** ** The wire image of a log entry *)

(** The four bytes [PutUint32] stores. *)
Definition be32 (v : Z) : list byte :=
  [u8 (v ≫ 24); u8 (v ≫ 16); u8 (v ≫ 8); u8 v].

(** The bytes [Record.Serialize] leaves at the start of a buffer that is
    long enough ([Record_Serialize_fits]). *)
Definition Record_wire (r : Record.t) : list byte :=
  u8 (len (list_byte_of_string (Record.Key r)))
    :: be32 (u32 (len (Record.Value r)))
    ++ list_byte_of_string (Record.Key r) ++ Record.Value r.

(** The bytes [RecordLog.Serialize] leaves at the start of a buffer that is
    long enough ([RecordLog_Serialize_fits]). *)
Definition RecordLog_wire (r : RecordLog.t) : list byte :=
  if bool_decide (byte_to_Z (RecordLog.Action r) > byte_to_Z LRead)
  then [RecordLog.Action r]
  else RecordLog.Action r :: Record_wire (RecordLog.Record r).

(** ** Runs of the engine *)

(** One call of the engine's interface by its single caller. *)
Inductive op : Type :=
| OpRead (key : string)
| OpInsert (key : string) (value : list byte)
| OpUpdate (key : string) (value : list byte)
| OpDelete (key : string)
| OpCommit (seed1 seed2 : list nat)
| OpAbort.

Definition step (o : op) (txn : Txn.t) : go Txn.t :=
  match o with
  | OpRead _ => Done txn
  | OpInsert key value => Done (Txn.Insert txn key value).1
  | OpUpdate key value => Done (Txn.Update txn key value).1
  | OpDelete key => Done (Txn.Delete txn key).1
  | OpCommit seed1 seed2 => r ← Txn.Commit seed1 seed2 txn; Done r.1
  | OpAbort => Done (Txn.Abort txn)
  end.

(** The engine states: those a caller can bring about, starting from
    [NewTxn] on any log file and going through the interface. *)
Inductive reachable : Txn.t → Prop :=
| reachable_new wal : reachable (Txn.NewTxn wal)
| reachable_step o txn txn' :
    reachable txn → step o txn = Done txn' → reachable txn'.

(** ** Invariants of the engine state *)

Definition pending_action (a : byte) : Prop :=
  a = LInsert ∨ a = LUpdate ∨ a = LDelete.

Record wf (txn : Txn.t) : Prop := {
  wf_action k rl :
    Txn.writeSet txn !! k = Some rl → pending_action (RecordLog.Action rl);
  wf_ws_key k rl :
    Txn.writeSet txn !! k = Some rl → RecordLog.Key rl = k;
  wf_db_key k r :
    Txn.db txn !! k = Some r → Record.Key r = k;
  wf_insert k rl :
    Txn.writeSet txn !! k = Some rl → RecordLog.Action rl = LInsert →
    Txn.db txn !! k = None;
  wf_present k rl :
    Txn.writeSet txn !! k = Some rl →
    RecordLog.Action rl = LUpdate ∨ RecordLog.Action rl = LDelete →
    is_Some (Txn.db txn !! k)
}.

(** What the write-back of one pending entry makes of the db at key [k]. *)
Definition applied (rl : option RecordLog.t) (old : option Record.t) : option Record.t :=
  match rl with
  | None => old
  | Some rl =>
      if decide (RecordLog.Action rl = LDelete) then None
      else Some (RecordLog.Record rl)
  end.

(** The serialized entry fits the buffer of [Commit]. *)
Definition fits (r : RecordLog.t) : Prop := len (RecordLog_wire r) ≤ 4096.

(** The error the [i]-th coming system call on the file will fail with. *)
Definition failure_at (f : File.t) (i : nat) : option error :=
  match File.script f !! i with
  | Some (IoErr _ code) => Some (ErrIO code)
  | _ => None
  end.

(** What remains of [Commit] once the first loop is through. *)
Definition commit_tail (seed2 : list nat) (txn : Txn.t) (wal1 : File.t) (err1 : option error)
    : Txn.t * option error :=
  match err1 with
  | Some e => (Txn.mk wal1 (Txn.db txn) (Txn.writeSet txn), Some e)
  | None =>
      let '(wal2, (_, err2)) := File.Write wal1 [LCommit] in
      match err2 with
      | Some e => (Txn.mk wal2 (Txn.db txn) (Txn.writeSet txn), Some e)
      | None =>
          let '(wal3, err3) := File.Sync wal2 in
          match err3 with
          | Some e => (Txn.mk wal3 (Txn.db txn) (Txn.writeSet txn), Some e)
          | None =>
              let '(db', ws', err) :=
                Txn.apply_loop (range seed2 (Txn.writeSet txn)) (Txn.db txn) (Txn.writeSet txn) in
              (Txn.mk wal3 db' ws', err)
          end
      end
  end.

(** ** The demonstration run

    The states [main] goes through on a log file that is empty and never
    fails, and a few more the properties below are tried on. *)

Definition demo_wal : File.t := {| File.data := []; File.script := [] |}.
Definition value1 : list byte := [x76; x61; x6c; x75; x65; x31].
Definition value3 : list byte := [x76; x61; x6c; x75; x65; x33].

(** After [Insert("key1", "value1")] and [Insert("key3", "value3")]. *)
Definition demo_pending : Txn.t :=
  (Txn.Insert (Txn.Insert (Txn.NewTxn demo_wal) "key1" value1).1 "key3" value3).1.

(** After the [Commit] that follows, when the first loop meets [key3] before
    [key1]. *)
Definition demo_committed : Txn.t :=
  {| Txn.wal := {| File.data :=
                     [x01; x04; x00; x00; x00; x06; x6b; x65; x79; x33] ++ value3 ++
                     [x01; x04; x00; x00; x00; x06; x6b; x65; x79; x31] ++ value1 ++ [x05];
                   File.script := [] |};
     Txn.db := <["key1"%string := Record.mk "key1" value1]>
               (<["key3"%string := Record.mk "key3" value3]> ∅);
     Txn.writeSet := ∅ |}.

(** The same two calls of [Insert] on a log file whose fourth system call
    fails. *)
Definition demo_sync_fails : Txn.t :=
  (Txn.Insert
     (Txn.Insert (Txn.NewTxn {| File.data := []; File.script := [IoOk; IoOk; IoOk; IoErr 0 5] |})
        "key1" value1).1 "key3" value3).1.

(** A pending Delete of a committed key. *)
Definition demo_deleted : Txn.t := (Txn.Delete demo_committed "key1").1.

(** A pending Insert of a fresh key. *)
Definition demo_one_pending : Txn.t := (Txn.Insert demo_committed "key2" [x32]).1.

(** A key of 251 bytes. *)
Definition long_key : string := string_of_list_byte (replicate 251 x61).

(** The number a header of four bytes stands for. *)
Definition be32_value (v0 v1 v2 v3 : byte) : Z :=
  byte_to_Z v0 * 2 ^ 24 + byte_to_Z v1 * 2 ^ 16 + byte_to_Z v2 * 2 ^ 8 + byte_to_Z v3.

(** A pending Update of a committed key. *)
Definition demo_updated : Txn.t := (Txn.Update demo_committed "key1" [x32]).1.

(** A pending Insert whose serialization takes 4100 bytes. *)
Definition demo_oversized : Txn.t :=
  (Txn.Insert (Txn.NewTxn demo_wal) "big" (replicate 4091 x00)).1.

(** * Properties *)

(** ** Bytes *)

Lemma byte_to_Z_range b : 0 ≤ byte_to_Z b < 256.
Proof.
  unfold byte_to_Z. pose proof (Byte.to_N_bounded b). lia.
Qed.

Lemma byte_to_Z_u8 z : byte_to_Z (u8 z) = z mod 256.
Proof.
  unfold u8, byte_to_Z.
  pose proof (Z.mod_pos_bound z 256 ltac:(lia)) as Hr.
  destruct (Byte.of_N (Z.to_N (z mod 256))) as [b|] eqn:E; simpl.
  - apply Byte.to_of_N in E. rewrite E. lia.
  - apply Byte.of_N_None_iff in E. lia.
Qed.

Lemma u8_byte_to_Z b : u8 (byte_to_Z b) = b.
Proof.
  unfold u8. pose proof (byte_to_Z_range b) as Hr.
  rewrite Z.mod_small by lia. unfold byte_to_Z.
  rewrite N2Z.id, Byte.of_to_N. done.
Qed.

Lemma testbit_u8 z n : 0 ≤ n →
  Z.testbit (byte_to_Z (u8 z)) n = if bool_decide (n < 8) then Z.testbit z n else false.
Proof.
  intros Hn. rewrite byte_to_Z_u8. change 256 with (2 ^ 8).
  case_bool_decide.
  - apply Z.mod_pow2_bits_low. lia.
  - apply Z.mod_pow2_bits_high. lia.
Qed.

Lemma lor_shiftl_add a b k : 0 ≤ k → 0 ≤ a < 2 ^ k → Z.lor a (b ≪ k) = a + b * 2 ^ k.
Proof.
  intros Hk Ha. rewrite <- Z.shiftl_mul_pow2 by lia.
  rewrite <- Z.add_lor_land.
  replace (Z.land a (b ≪ k)) with 0; [lia|].
  symmetry. apply Z.bits_inj'. intros n Hn.
  rewrite Z.land_spec, Z.bits_0.
  destruct (decide (n < k)).
  - rewrite Z.shiftl_spec_low by lia. apply andb_false_r.
  - rewrite <- (Z.mod_small a (2 ^ k)) by lia.
    rewrite Z.mod_pow2_bits_high by lia. done.
Qed.

(** [Uint32] reads a big-endian number. *)
Lemma Uint32_sum b0 b1 b2 b3 rest :
  Uint32 (b0 :: b1 :: b2 :: b3 :: rest) =
  Done (byte_to_Z b0 * 2 ^ 24 + byte_to_Z b1 * 2 ^ 16 + byte_to_Z b2 * 2 ^ 8 + byte_to_Z b3).
Proof.
  unfold Uint32. f_equal.
  pose proof (byte_to_Z_range b0). pose proof (byte_to_Z_range b1).
  pose proof (byte_to_Z_range b2). pose proof (byte_to_Z_range b3).
  rewrite (lor_shiftl_add (byte_to_Z b3)) by lia.
  rewrite (lor_shiftl_add _ _ 16) by lia.
  rewrite (lor_shiftl_add _ _ 24) by lia.
  lia.
Qed.

(** [Uint32] reads back what [PutUint32] stored. *)
Lemma Uint32_be32 v rest : 0 ≤ v < 2 ^ 32 → Uint32 (be32 v ++ rest) = Done v.
Proof.
  intros Hv. unfold be32, Uint32. simpl. f_equal.
  apply Z.bits_inj'. intros n Hn.
  rewrite !Z.lor_spec, !Z.shiftl_spec by lia.
  destruct (decide (n < 8)); [|destruct (decide (n < 16)); [|destruct (decide (n < 24));
    [|destruct (decide (n < 32))]]].
  all: rewrite (testbit_u8 v) by lia.
  all: try rewrite (Z.testbit_neg_r _ (n - 8)) by lia.
  all: try rewrite (Z.testbit_neg_r _ (n - 16)) by lia.
  all: try rewrite (Z.testbit_neg_r _ (n - 24)) by lia.
  all: try rewrite (testbit_u8 _ (n - 8)) by lia.
  all: try rewrite (testbit_u8 _ (n - 16)) by lia.
  all: try rewrite (testbit_u8 _ (n - 24)) by lia.
  all: rewrite ?Z.shiftr_spec by lia.
  all: repeat case_bool_decide; try lia.
  all: rewrite ?orb_false_r, ?orb_false_l; try (f_equal; lia).
  symmetry. rewrite <- (Z.mod_small v (2 ^ 32)) by lia.
  apply Z.mod_pow2_bits_high. lia.
Qed.

Lemma len_nonneg {A} (l : list A) : 0 ≤ len l.
Proof. unfold len. lia. Qed.

Lemma len_app {A} (l1 l2 : list A) : len (l1 ++ l2) = len l1 + len l2.
Proof. unfold len. rewrite length_app. lia. Qed.

Lemma copy_le dst src :
  (length src ≤ length dst)%nat → copy dst src = src ++ drop (length src) dst.
Proof.
  intros H. unfold copy. rewrite Nat.min_r by lia.
  by rewrite firstn_all.
Qed.

Lemma clone_id v : Txn.clone v = v.
Proof.
  unfold Txn.clone. rewrite copy_le by (by rewrite length_replicate).
  rewrite drop_ge by (by rewrite length_replicate). apply app_nil_r.
Qed.

(** ** The record codec *)

Lemma with_slice_from_Done {R} lo (f : list byte → go (list byte * R)) buf sub r :
  0 ≤ lo ≤ len buf → f (drop (Z.to_nat lo) buf) = Done (sub, r) →
  with_slice_from lo f buf = Done (take (Z.to_nat lo) buf ++ sub, r).
Proof.
  intros Hlo Hf. unfold with_slice_from.
  rewrite bool_decide_true by done. rewrite Hf. done.
Qed.

Ltac len_lia :=
  unfold len in *; try unfold be32 in *; cbn [length app] in *;
  rewrite ?length_app, ?length_drop, ?length_take, ?length_insert, ?length_replicate in *;
  cbn [length] in *; lia.

Lemma Record_wire_len r :
  len (Record_wire r) =
  5 + len (list_byte_of_string (Record.Key r)) + len (Record.Value r).
Proof.
  unfold Record_wire, be32, len. simpl. rewrite !length_app. lia.
Qed.

Lemma Record_Serialize_fits r buf :
  len (Record_wire r) ≤ len buf →
  Record.Serialize r buf =
  Done (Record_wire r ++ drop (length (Record_wire r)) buf, (len (Record_wire r), None)).
Proof.
  rewrite Record_wire_len. intros Hlen.
  unfold Record.Serialize.
  set (key := list_byte_of_string (Record.Key r)) in *.
  set (value := Record.Value r) in *.
  pose proof (len_nonneg key). pose proof (len_nonneg value).
  rewrite bool_decide_false by lia.
  destruct buf as [|c0 [|c1 [|c2 [|c3 [|c4 rest]]]]]; try len_lia.
  unfold index_set. rewrite bool_decide_true by len_lia.
  assert (Hrest : (length key + length value ≤ length rest)%nat) by len_lia.
  simpl.
  erewrite with_slice_from_Done; [| len_lia |];
    last (unfold PutUint32; rewrite bool_decide_false by len_lia; done).
  simpl.
  erewrite with_slice_from_Done; [| len_lia | done].
  simpl. rewrite drop_0, copy_le by lia.
  erewrite with_slice_from_Done; [| len_lia | done].
  simpl. do 3 f_equal.
  replace (Z.to_nat (5 + len key)) with (5 + length key)%nat by len_lia.
  simpl. unfold Record_wire, be32. fold key value. simpl. do 5 f_equal.
  rewrite take_app_length, drop_app_length.
  rewrite copy_le by (rewrite length_drop; lia).
  rewrite drop_drop, length_app. by rewrite <- app_assoc.
Qed.

Lemma Record_Serialize_short r buf :
  len buf < len (Record_wire r) →
  Record.Serialize r buf = Done (buf, (0, Some ErrBufferShort)).
Proof.
  rewrite Record_wire_len. intros Hlen. unfold Record.Serialize.
  by rewrite bool_decide_true by lia.
Qed.

Lemma RecordLog_wire_len r :
  len (RecordLog_wire r) =
  if bool_decide (byte_to_Z (RecordLog.Action r) > byte_to_Z LRead) then 1
  else 1 + len (Record_wire (RecordLog.Record r)).
Proof.
  unfold RecordLog_wire. case_bool_decide; [done|].
  unfold len. cbn [length]. lia.
Qed.

Lemma RecordLog_wire_pos r : 1 ≤ len (RecordLog_wire r).
Proof.
  rewrite RecordLog_wire_len. case_bool_decide; [lia|].
  pose proof (len_nonneg (Record_wire (RecordLog.Record r))). lia.
Qed.

Lemma RecordLog_Serialize_fits r buf :
  len (RecordLog_wire r) ≤ len buf →
  RecordLog.Serialize r buf =
  Done (RecordLog_wire r ++ drop (length (RecordLog_wire r)) buf,
        (len (RecordLog_wire r), None)).
Proof.
  intros Hlen. pose proof (RecordLog_wire_pos r) as Hpos.
  assert (Hbuf : 1 ≤ len buf) by lia.
  revert Hlen. rewrite RecordLog_wire_len. unfold RecordLog.Serialize, RecordLog_wire.
  intros Hlen. rewrite (bool_decide_false (len buf < 1)) by lia.
  destruct buf as [|c0 rest]; [len_lia|].
  case_bool_decide.
  - unfold index_set. rewrite bool_decide_true by len_lia. done.
  - erewrite with_slice_from_Done; [| len_lia |];
      last (apply Record_Serialize_fits; len_lia).
    simpl. by rewrite drop_0.
Qed.

Lemma RecordLog_Serialize_short r buf :
  len buf < len (RecordLog_wire r) →
  RecordLog.Serialize r buf = Done (buf, (0, Some ErrBufferShort)).
Proof.
  rewrite RecordLog_wire_len. unfold RecordLog.Serialize. intros Hlen.
  destruct (bool_decide (len buf < 1)) eqn:E1; [done|].
  apply bool_decide_eq_false in E1.
  destruct (bool_decide (byte_to_Z (RecordLog.Action r) > byte_to_Z LRead)); [lia|].
  destruct buf as [|c0 rest]; [len_lia|].
  erewrite with_slice_from_Done; [| len_lia |];
    last (apply Record_Serialize_short; len_lia).
  done.
Qed.

Lemma RecordLog_Serialize_tag r buf :
  byte_to_Z (RecordLog.Action r) > byte_to_Z LRead → 1 ≤ len buf →
  RecordLog.Serialize r buf = Done (RecordLog.Action r :: drop 1 buf, (1, None)).
Proof.
  intros Ha Hlen. unfold RecordLog.Serialize.
  rewrite bool_decide_false by lia. rewrite bool_decide_true by done.
  destruct buf; [len_lia|].
  unfold index_set. rewrite bool_decide_true by len_lia. done.
Qed.

Lemma slice_Done buf lo hi :
  0 ≤ lo ≤ hi → hi ≤ len buf →
  slice buf lo hi = Done (take (Z.to_nat (hi - lo)) (drop (Z.to_nat lo) buf)).
Proof. intros. unfold slice. by rewrite bool_decide_true by done. Qed.

Lemma slice_Panic buf lo hi :
  hi < lo → slice buf lo hi = Panic "slice bounds out of range".
Proof. intros. unfold slice. by rewrite bool_decide_false by lia. Qed.

Lemma bind_Done {A B} (a : A) (f : A → go B) : (Done a ≫= f) = f a.
Proof. done. Qed.

Lemma index_0 b l : index (b :: l) 0 = Done b.
Proof. unfold index. rewrite bool_decide_true by len_lia. done. Qed.

Lemma Record_Deserialize_wire r0 r rest :
  len (list_byte_of_string (Record.Key r)) ≤ 255 →
  len (Record.Value r) < 2 ^ 32 →
  Record.Deserialize r0 (Record_wire r ++ rest) =
  if bool_decide (len (list_byte_of_string (Record.Key r)) ≤ 250)
  then Done (r, (len (Record_wire r), None))
  else Panic "slice bounds out of range".
Proof.
  intros Hk Hv. rewrite Record_wire_len.
  pose proof (string_of_list_byte_of_string (Record.Key r)) as Hkey.
  destruct r as [k v]. cbn [Record.Key Record.Value] in *.
  unfold Record_wire. cbn [Record.Key Record.Value].
  set (key := list_byte_of_string k) in *.
  pose proof (len_nonneg key). pose proof (len_nonneg v). pose proof (len_nonneg rest).
  unfold u32. rewrite (Z.mod_small (len v)) by lia.
  rewrite <- app_comm_cons, <- !app_assoc.
  set (body := key ++ v ++ rest).
  assert (Hbody : len body = len key + len v + len rest)
    by (unfold body; rewrite !len_app; lia).
  unfold Record.Deserialize.
  rewrite bool_decide_false by len_lia.
  rewrite index_0, bind_Done.
  rewrite (slice_Done _ 1) by len_lia. rewrite bind_Done.
  replace (take _ (drop (Z.to_nat 1) _)) with (be32 (len v) ++ body);
    last (cbn [Z.to_nat Pos.to_nat Pos.iter_op Nat.add drop]; rewrite take_ge; [done | len_lia]).
  rewrite Uint32_be32 by lia. rewrite bind_Done.
  rewrite byte_to_Z_u8. rewrite (Z.mod_small (len key)) by lia.
  rewrite bool_decide_false by len_lia.
  rewrite byte_to_Z_u8.
  case_bool_decide as Hsmall.
  - rewrite (Z.mod_small (5 + len key)) by lia.
    rewrite (slice_Done _ 5) by len_lia. rewrite bind_Done.
    rewrite slice_Done by len_lia. rewrite bind_Done.
    cbn [Record.Key Record.Value]. do 2 f_equal. f_equal.
    + rewrite <- Hkey. f_equal.
      replace (Z.to_nat 5) with 5%nat by lia. cbn [drop app be32].
      replace (Z.to_nat (5 + len key - 5)) with (length key) by len_lia.
      unfold body. by rewrite drop_0, take_app_length.
    + replace (Z.to_nat (5 + len key)) with (5 + length key)%nat by len_lia.
      cbn [drop app be32 Nat.add].
      replace (Z.to_nat (5 + len key + len v - (5 + len key))) with (length v) by len_lia.
      unfold body. rewrite drop_app_length, take_app_length.
      rewrite copy_le by len_lia.
      rewrite drop_ge by len_lia. apply app_nil_r.
  - rewrite (slice_Panic _ 5); [reflexivity|].
    replace ((5 + len key) mod 256) with (5 + len key - 256); [lia|].
    apply Z.mod_unique with (q := 1); lia.
Qed.

(** ** Iteration order *)

Lemma shuffle_perm {A} seed (l : list A) : shuffle seed l ≡ₚ l.
Proof.
  revert seed. induction l as [|x l IH]; intros seed; [done|].
  cbn [shuffle]. rewrite <- Permutation_middle, take_drop. by rewrite IH.
Qed.

(** Every arrangement of the entries is the choice of some seed. *)
Lemma shuffle_complete {A} (l l' : list A) : l' ≡ₚ l → ∃ seed, shuffle seed l = l'.
Proof.
  revert l'. induction l as [|x l IH]; intros l' Hp.
  - apply Permutation_nil_r in Hp. by exists [].
  - assert (x ∈ l') as Hx by (rewrite Hp; left).
    apply list_elem_of_split in Hx as (l1 & l2 & ->).
    rewrite <- Permutation_middle in Hp. apply Permutation_cons_inv in Hp.
    destruct (IH _ Hp) as [seed Hs].
    exists (length l1 :: seed). cbn [shuffle hd tail]. rewrite Hs.
    rewrite Nat.mod_small by (rewrite length_app; lia).
    by rewrite take_app_length, drop_app_length.
Qed.

Lemma range_perm {V} seed (m : gmap string V) : range seed m ≡ₚ map_to_list m.
Proof. apply shuffle_perm. Qed.

Lemma elem_of_range {V} seed (m : gmap string V) k v :
  (k, v) ∈ range seed m ↔ m !! k = Some v.
Proof. rewrite range_perm. apply elem_of_map_to_list. Qed.

Lemma NoDup_range {V} seed (m : gmap string V) : NoDup (range seed m).*1.
Proof. rewrite range_perm. apply NoDup_fst_map_to_list. Qed.

Lemma length_range {V} seed (m : gmap string V) : length (range seed m) = size m.
Proof. rewrite range_perm. by rewrite length_map_to_list. Qed.

Lemma list_to_map_range {V} seed (m : gmap string V) :
  list_to_map (range seed m) = m.
Proof.
  rewrite <- (list_to_map_to_list m) at 2.
  apply list_to_map_proper; [apply NoDup_range | apply range_perm].
Qed.

(** ** The log file *)

Lemma File_Write_ok f b :
  failure_at f 0 = None →
  File.Write f b =
  ({| File.data := File.data f ++ b; File.script := tail (File.script f) |}, (len b, None)).
Proof.
  unfold failure_at, File.Write. destruct (File.script f) as [|[|n c] rest]; by simpl.
Qed.

Lemma File_Write_fail f b e :
  failure_at f 0 = Some e →
  ∃ n, File.Write f b =
       ({| File.data := File.data f ++ take n b; File.script := tail (File.script f) |},
        (len (take n b), Some e)).
Proof.
  unfold failure_at, File.Write. destruct (File.script f) as [|[|n c] rest]; simpl; try done.
  intros [= <-]. by exists n.
Qed.

Lemma File_Sync_ok f :
  failure_at f 0 = None →
  File.Sync f = ({| File.data := File.data f; File.script := tail (File.script f) |}, None).
Proof.
  unfold failure_at, File.Sync. destruct (File.script f) as [|[|n c] rest]; by simpl.
Qed.

Lemma File_Sync_fail f e :
  failure_at f 0 = Some e →
  File.Sync f = ({| File.data := File.data f; File.script := tail (File.script f) |}, Some e).
Proof.
  unfold failure_at, File.Sync. destruct (File.script f) as [|[|n c] rest]; simpl; try done.
  by intros [= <-].
Qed.

Lemma failure_at_S d s i :
  failure_at {| File.data := d; File.script := tail s |} i =
  failure_at {| File.data := d; File.script := s |} (S i).
Proof. unfold failure_at. cbn [File.script]. by rewrite lookup_tail. Qed.

Lemma failure_at_data f d i :
  failure_at {| File.data := d; File.script := File.script f |} i = failure_at f i.
Proof. done. Qed.

(** ** The first loop of Commit *)

Lemma write_loop_cons_short k r rest wal buf :
  len buf = 4096 → ¬ fits r →
  Txn.write_loop ((k, r) :: rest) wal buf = Done (wal, buf, Some ErrBufferShort).
Proof.
  unfold fits. intros Hbuf Hfit. cbn [Txn.write_loop].
  erewrite with_slice_from_Done; [| lia |];
    last (rewrite drop_0; apply RecordLog_Serialize_short; lia).
  rewrite bind_Done. cbn [Z.to_nat]. rewrite take_0. cbn [app].
  by rewrite decide_True by done.
Qed.

Lemma write_loop_cons_fits k r rest wal buf :
  len buf = 4096 → fits r →
  Txn.write_loop ((k, r) :: rest) wal buf =
  let buf' := RecordLog_wire r ++ drop (length (RecordLog_wire r)) buf in
  let '(wal', (_, err)) := File.Write wal (RecordLog_wire r) in
  match err with
  | Some e => Done (wal', buf', Some e)
  | None => Txn.write_loop rest wal' buf'
  end.
Proof.
  unfold fits. intros Hbuf Hfit. cbn [Txn.write_loop].
  erewrite with_slice_from_Done; [| lia |];
    last (rewrite drop_0; apply RecordLog_Serialize_fits; lia).
  rewrite bind_Done. cbn [Z.to_nat]. rewrite take_0. cbn [app].
  rewrite decide_False by done.
  pose proof (len_nonneg (RecordLog_wire r)).
  rewrite slice_Done; [| lia | rewrite len_app; len_lia].
  rewrite bind_Done. cbn [Z.to_nat]. rewrite drop_0.
  replace (Z.to_nat (len (RecordLog_wire r) - 0)) with (length (RecordLog_wire r)) by len_lia.
  by rewrite take_app_length.
Qed.

Lemma write_loop_spec entries wal buf :
  len buf = 4096 →
  ∃ wal' buf' err,
    Txn.write_loop entries wal buf = Done (wal', buf', err) ∧ len buf' = 4096 ∧
    match err with
    | None =>
        Forall (λ kr, fits kr.2) entries
        ∧ (∀ i, (i < length entries)%nat → failure_at wal i = None)
        ∧ File.data wal' =
          File.data wal ++ concat (map (λ kr, RecordLog_wire kr.2) entries)
        ∧ File.script wal' = drop (length entries) (File.script wal)
    | Some e =>
        (e = ErrBufferShort ∧ Exists (λ kr, ¬ fits kr.2) entries)
        ∨ (∃ i, (i < length entries)%nat ∧ failure_at wal i = Some e
                ∧ ∀ j, (j < i)%nat → failure_at wal j = None)
    end.
Proof.
  revert wal buf. induction entries as [|[k r] rest IH]; intros wal buf Hbuf.
  - exists wal, buf, None. cbn [Txn.write_loop length concat map].
    rewrite app_nil_r, drop_0. repeat split; auto. intros i Hi. lia.
  - destruct (decide (len (RecordLog_wire r) ≤ 4096)) as [Hfit|Hfit].
    2:{ exists wal, buf, (Some ErrBufferShort).
        rewrite write_loop_cons_short by done.
        split; [done|]. split; [done|].
        left. split; [done|]. by apply Exists_cons_hd. }
    rewrite write_loop_cons_fits by done. cbn zeta.
    set (buf1 := RecordLog_wire r ++ drop (length (RecordLog_wire r)) buf).
    assert (Hbuf1 : len buf1 = 4096) by (unfold buf1, fits in *; len_lia).
    destruct (failure_at wal 0) as [e|] eqn:Hf.
    + destruct (File_Write_fail wal (RecordLog_wire r) e Hf) as [n ->].
      eexists _, _, (Some e). split; [done|]. split; [done|].
      right. exists 0%nat. cbn [length]. split; [lia|]. split; [done|]. intros j Hj. lia.
    + rewrite File_Write_ok by done.
      destruct (IH {| File.data := File.data wal ++ RecordLog_wire r;
                      File.script := tail (File.script wal) |} buf1 Hbuf1)
        as (wal' & buf' & err & -> & Hbuf' & Hspec).
      exists wal', buf', err. split; [done|]. split; [done|].
      destruct err as [e|].
      * destruct Hspec as [[-> Hex]|(i & Hi & Hfi & Hbefore)].
        -- left. split; [done|]. by apply Exists_cons_tl.
        -- right. exists (S i). cbn [length]. split; [lia|].
           rewrite failure_at_S in Hfi. split; [by destruct wal|].
           intros [|j] Hj; [done|].
           specialize (Hbefore j ltac:(lia)). rewrite failure_at_S in Hbefore.
           by destruct wal.
      * destruct Hspec as (Hall & Hno & Hdata & Hscript).
        cbn [File.data File.script] in *. repeat split.
        -- by constructor.
        -- intros [|i] Hi; [done|]. cbn [length] in Hi.
           specialize (Hno i ltac:(lia)). rewrite failure_at_S in Hno. by destruct wal.
        -- rewrite Hdata. cbn [map concat snd]. by rewrite app_assoc.
        -- rewrite Hscript. cbn [length]. destruct (File.script wal); [cbn [tail]; by rewrite !drop_nil | reflexivity].
Qed.

(** ** The second loop of Commit *)

Lemma apply_loop_pending entries db ws db' ws' :
  Txn.apply_loop entries db ws = (db', ws', None) →
  Forall (λ kr, pending_action (RecordLog.Action kr.2)) entries.
Proof.
  revert db ws. induction entries as [|[k rl] rest IH]; intros db ws H; [constructor|].
  cbn [Txn.apply_loop] in H. unfold pending_action.
  repeat case_decide; try done; constructor; eauto.
Qed.

Lemma Record_eta (r : Record.t) :
  {| Record.Key := Record.Key r; Record.Value := Record.Value r |} = r.
Proof. by destruct r. Qed.

Lemma apply_loop_spec entries db ws :
  NoDup entries.*1 →
  (∀ k rl, (k, rl) ∈ entries →
     RecordLog.Key rl = k ∧ pending_action (RecordLog.Action rl) ∧
     (RecordLog.Action rl = LUpdate → ∃ r, db !! k = Some r ∧ Record.Key r = k)) →
  ∃ db' ws',
    Txn.apply_loop entries db ws = (db', ws', None) ∧
    (∀ k, db' !! k = applied (list_to_map (M := gmap string RecordLog.t) entries !! k) (db !! k)) ∧
    (∀ k, ws' !! k = if decide (k ∈ entries.*1) then None else ws !! k).
Proof.
  revert db ws. induction entries as [|[k0 rl] rest IH]; intros db ws Hnd Hent.
  - exists db, ws. split; [done|]. split; intros k.
    + by rewrite list_to_map_nil, lookup_empty.
    + rewrite decide_False; [done|]. apply not_elem_of_nil.
  - cbn [fmap list_fmap fst] in Hnd. apply NoDup_cons in Hnd as [Hk0 Hnd].
    destruct (Hent k0 rl) as (Hkey & Hact & Hupd); [left|].
    set (db1 := if decide (RecordLog.Action rl = LDelete) then delete k0 db
                else <[k0 := RecordLog.Record rl]> db).
    assert (Hstep : Txn.apply_loop ((k0, rl) :: rest) db ws =
                    Txn.apply_loop rest db1 (delete k0 ws)).
    { cbn [Txn.apply_loop]. unfold db1. rewrite Hkey.
      destruct Hact as [Ha|[Ha|Ha]]; rewrite Ha.
      - by rewrite decide_True, (decide_False (P := LInsert = LDelete)) by done.
      - rewrite (decide_False (P := LUpdate = LInsert)), decide_True,
          (decide_False (P := LUpdate = LDelete)) by done.
        destruct (Hupd Ha) as (r & -> & Hr). cbn [default from_option id].
        unfold RecordLog.Value. rewrite Hr, <- Hkey.
        change (Record.Key (RecordLog.Record rl)) with (RecordLog.Key rl).
        unfold RecordLog.Key. by rewrite Record_eta.
      - by rewrite (decide_False (P := LDelete = LInsert)),
          (decide_False (P := LDelete = LUpdate)), !decide_True by done. }
    destruct (IH db1 (delete k0 ws) Hnd) as (db' & ws' & Hrun & Hdb & Hws).
    { intros k rl' Hin. destruct (Hent k rl') as (? & ? & Hu); [by right|].
      split; [done|]. split; [done|]. intros Ha.
      assert (k ≠ k0).
      { intros ->. apply Hk0. apply list_elem_of_fmap. by exists (k0, rl'). }
      unfold db1. case_decide; [rewrite lookup_delete_ne | rewrite lookup_insert_ne]; auto. }
    exists db', ws'. split; [by rewrite Hstep|]. split; intros k.
    + rewrite Hdb, list_to_map_cons.
      destruct (decide (k = k0)) as [->|Hne].
      * rewrite lookup_insert_eq. rewrite (not_elem_of_list_to_map_1 _ k0) by done.
        unfold applied, db1. case_decide; [apply lookup_delete_eq | apply lookup_insert_eq].
      * rewrite lookup_insert_ne by done. f_equal.
        unfold db1. case_decide; [by rewrite lookup_delete_ne | by rewrite lookup_insert_ne].
    + rewrite Hws. cbn [fmap list_fmap fst].
      destruct (decide (k = k0)) as [->|Hne].
      * rewrite (decide_True (P := k0 ∈ k0 :: _)) by left.
        case_decide; [done | apply lookup_delete_eq].
      * rewrite lookup_delete_ne by done.
        destruct (decide (k ∈ rest.*1)).
        -- by rewrite decide_True by (by right).
        -- rewrite decide_False; [done|]. by intros [?|?]%elem_of_cons.
Qed.

(** ** Commit *)

Lemma Commit_empty seed1 seed2 txn :
  Txn.writeSet txn = ∅ → Txn.Commit seed1 seed2 txn = Done (txn, None).
Proof.
  intros H. unfold Txn.Commit. rewrite H, map_size_empty. done.
Qed.

Lemma Commit_unfold seed1 seed2 txn wal1 buf1 err1 :
  Txn.writeSet txn ≠ ∅ →
  Txn.write_loop (range seed1 (Txn.writeSet txn)) (Txn.wal txn) (replicate 4096 x00)
    = Done (wal1, buf1, err1) →
  len buf1 = 4096 →
  Txn.Commit seed1 seed2 txn = Done (commit_tail seed2 txn wal1 err1).
Proof.
  intros Hne Hloop Hbuf. unfold Txn.Commit, commit_tail.
  rewrite bool_decide_false by (by rewrite map_size_empty_iff).
  rewrite Hloop, bind_Done.
  destruct err1 as [e|]; [done|].
  erewrite with_slice_from_Done; [| lia |];
    last (rewrite drop_0; apply RecordLog_Serialize_tag; [done | lia]).
  rewrite bind_Done. cbn [Z.to_nat RecordLog.Action]. rewrite take_0. cbn [app].
  rewrite slice_Done; [| lia | len_lia]. rewrite bind_Done.
  cbn [Z.to_nat Z.sub Z.opp Z.add Pos.to_nat Pos.iter_op]. rewrite drop_0.
  replace (take (Z.to_nat (1 - 0)) (LCommit :: drop 1 buf1)) with [LCommit] by done.
  destruct (File.Write wal1 [LCommit]) as [wal2 [n2 [e|]]]; [done|].
  destruct (File.Sync wal2) as [wal3 [e|]]; [done|].
  by destruct (Txn.apply_loop _ _ _) as [[db' ws'] err].
Qed.

(** ** Preservation of the invariants *)

Lemma wf_NewTxn wal : wf (Txn.NewTxn wal).
Proof. split; cbn; intros *; by rewrite lookup_empty. Qed.

(** [wf] speaks of the db and the write-set only. *)
Lemma wf_ext txn txn' :
  Txn.db txn' = Txn.db txn → Txn.writeSet txn' = Txn.writeSet txn → wf txn → wf txn'.
Proof.
  intros Hdb Hws [H1 H2 H3 H4 H5].
  split; rewrite ?Hdb, ?Hws; eauto.
Qed.

(** Putting a well-formed entry under its key keeps the state well
    formed. *)
Lemma wf_put txn k rl :
  wf txn →
  RecordLog.Key rl = k →
  pending_action (RecordLog.Action rl) →
  (RecordLog.Action rl = LInsert → Txn.db txn !! k = None) →
  (RecordLog.Action rl = LUpdate ∨ RecordLog.Action rl = LDelete →
   is_Some (Txn.db txn !! k)) →
  wf (Txn.mk (Txn.wal txn) (Txn.db txn) (<[k := rl]> (Txn.writeSet txn))).
Proof.
  intros [H1 H2 H3 H4 H5] Hk Ha Hi Hp.
  split; cbn [Txn.db Txn.writeSet]; try done; intros k' rl'; rewrite lookup_insert;
    case_decide; subst; try (intros [= <-]; done); eauto.
Qed.

Lemma wf_drop txn k :
  wf txn → wf (Txn.mk (Txn.wal txn) (Txn.db txn) (delete k (Txn.writeSet txn))).
Proof.
  intros [H1 H2 H3 H4 H5].
  split; cbn [Txn.db Txn.writeSet]; try done; intros k' rl'; rewrite lookup_delete;
    case_decide; subst; try done; eauto.
Qed.

Lemma Insert_wf txn key value : wf txn → wf (Txn.Insert txn key value).1.
Proof.
  intros Hwf. unfold Txn.Insert.
  destruct (Txn.writeSet txn !! key) as [r|] eqn:Hr.
  - destruct (decide (RecordLog.Action r = LDelete)) as [Ha|Ha].
    + rewrite decide_False by (intros ?; done). cbn [fst].
      rewrite (wf_ws_key _ Hwf _ _ Hr).
      apply wf_put; cbn [RecordLog.Action]; [done | done | ..].
      * right; by left.
      * done.
      * intros _. apply (wf_present _ Hwf _ _ Hr). by right.
    + by rewrite decide_True.
  - destruct (Txn.db txn !! key) eqn:Hdb; [done|]. cbn [fst].
    apply wf_put; cbn [RecordLog.Action]; [done | done | ..].
    + by left.
    + done.
    + by intros [?|?].
Qed.

Lemma Update_wf txn key value : wf txn → wf (Txn.Update txn key value).1.
Proof.
  intros Hwf. unfold Txn.Update.
  destruct (Txn.writeSet txn !! key) as [r|] eqn:Hr.
  - case_decide as Ha; [done|]. cbn [fst].
    rewrite (wf_ws_key _ Hwf _ _ Hr).
    apply wf_put; cbn [RecordLog.Action]; [done | done | ..].
    + apply (wf_action _ Hwf _ _ Hr).
    + apply (wf_insert _ Hwf _ _ Hr).
    + apply (wf_present _ Hwf _ _ Hr).
  - destruct (Txn.db txn !! key) as [r|] eqn:Hdb; [|done]. cbn [fst].
    rewrite (wf_db_key _ Hwf _ _ Hdb).
    apply wf_put; cbn [RecordLog.Action]; [done | done | ..].
    + right; by left.
    + done.
    + by rewrite Hdb.
Qed.

Lemma Delete_wf txn key : wf txn → wf (Txn.Delete txn key).1.
Proof.
  intros Hwf. unfold Txn.Delete.
  destruct (Txn.writeSet txn !! key) as [r|] eqn:Hr.
  - case_decide as Ha; [done|]. case_decide as Hi; cbn [fst].
    + by apply wf_drop.
    + rewrite (wf_ws_key _ Hwf _ _ Hr).
      apply wf_put; cbn [RecordLog.Action]; [done | done | ..].
      * right; by right.
      * done.
      * intros _. apply (wf_present _ Hwf _ _ Hr).
        destruct (wf_action _ Hwf _ _ Hr) as [?|[?|?]]; try done; auto.
  - destruct (Txn.db txn !! key) as [r|] eqn:Hdb; [|done]. cbn [fst].
    rewrite (wf_db_key _ Hwf _ _ Hdb).
    apply wf_put; cbn [RecordLog.Action]; [done | done | ..].
    + right; by right.
    + done.
    + by rewrite Hdb.
Qed.

Lemma Abort_writeSet txn : Txn.writeSet (Txn.Abort txn) = ∅.
Proof.
  unfold Txn.Abort. cbn [Txn.writeSet]. apply map_eq. intros k.
  rewrite lookup_empty.
  assert (Hgen : ∀ (l : list (string * RecordLog.t)) (m : gmap string RecordLog.t),
            foldr (λ kv ws, delete kv.1 ws) m l !! k =
            if decide (k ∈ l.*1) then None else m !! k).
  { induction l as [|[k0 v0] l IH]; intros m.
    - by rewrite decide_False by apply not_elem_of_nil.
    - cbn [foldr fst fmap list_fmap]. rewrite lookup_delete.
      destruct (decide (k0 = k)) as [->|Hne].
      + by rewrite decide_True by left.
      + rewrite IH. destruct (decide (k ∈ l.*1)) as [Hin|Hin].
        * by rewrite decide_True by (by right).
        * rewrite decide_False; [done|]. by intros [?|?]%elem_of_cons. }
  rewrite Hgen. case_decide as Hin; [done|].
  destruct (Txn.writeSet txn !! k) as [v|] eqn:Hk; [|done].
  exfalso. apply Hin. apply list_elem_of_fmap. exists (k, v). split; [done|].
  by apply elem_of_map_to_list.
Qed.

Lemma Abort_wf txn : wf txn → wf (Txn.Abort txn).
Proof.
  intros Hwf. split; rewrite ?Abort_writeSet; intros *; rewrite ?lookup_empty; try done.
  apply (wf_db_key _ Hwf).
Qed.

Lemma Commit_nonempty seed1 seed2 txn :
  Txn.writeSet txn ≠ ∅ →
  ∃ wal1 err1,
    Txn.Commit seed1 seed2 txn = Done (commit_tail seed2 txn wal1 err1) ∧
    match err1 with
    | None =>
        Forall (λ kr, fits kr.2) (range seed1 (Txn.writeSet txn))
        ∧ (∀ i, (i < size (Txn.writeSet txn))%nat → failure_at (Txn.wal txn) i = None)
        ∧ File.data wal1 =
          File.data (Txn.wal txn)
            ++ concat (map (λ kr, RecordLog_wire kr.2) (range seed1 (Txn.writeSet txn)))
        ∧ File.script wal1 = drop (size (Txn.writeSet txn)) (File.script (Txn.wal txn))
    | Some e =>
        (e = ErrBufferShort ∧ Exists (λ kr, ¬ fits kr.2) (range seed1 (Txn.writeSet txn)))
        ∨ (∃ i, (i < size (Txn.writeSet txn))%nat ∧ failure_at (Txn.wal txn) i = Some e
                ∧ ∀ j, (j < i)%nat → failure_at (Txn.wal txn) j = None)
    end.
Proof.
  intros Hne.
  destruct (write_loop_spec (range seed1 (Txn.writeSet txn)) (Txn.wal txn)
              (replicate 4096 x00)) as (wal1 & buf1 & err1 & Hloop & Hbuf & Hspec).
  { unfold len. by rewrite length_replicate. }
  exists wal1, err1. split; [by eapply Commit_unfold|].
  by rewrite length_range in Hspec.
Qed.

(** On a well-formed state the write-back goes through, empties the
    write-set and leaves the db as [applied] says. *)
Lemma apply_loop_wf seed txn :
  wf txn →
  ∃ db',
    Txn.apply_loop (range seed (Txn.writeSet txn)) (Txn.db txn) (Txn.writeSet txn)
      = (db', ∅, None) ∧
    ∀ k, db' !! k = applied (Txn.writeSet txn !! k) (Txn.db txn !! k).
Proof.
  intros Hwf.
  destruct (apply_loop_spec (range seed (Txn.writeSet txn)) (Txn.db txn) (Txn.writeSet txn))
    as (db' & ws' & Hrun & Hdb & Hws).
  { apply NoDup_range. }
  { intros k rl Hin%elem_of_range.
    split; [by eapply wf_ws_key|]. split; [by eapply wf_action|].
    intros Ha. destruct (wf_present _ Hwf _ _ Hin) as [r Hr]; [by left|].
    exists r. split; [done|]. by eapply wf_db_key. }
  assert (ws' = ∅) as ->.
  { apply map_eq. intros k. rewrite Hws, lookup_empty.
    case_decide as Hin; [done|].
    destruct (Txn.writeSet txn !! k) as [rl|] eqn:Hk; [|done].
    exfalso. apply Hin. apply list_elem_of_fmap. exists (k, rl).
    split; [done|]. by apply elem_of_range. }
  exists db'. split; [done|]. intros k. by rewrite Hdb, list_to_map_range.
Qed.

Lemma applied_wf txn db' :
  wf txn →
  (∀ k, db' !! k = applied (Txn.writeSet txn !! k) (Txn.db txn !! k)) →
  ∀ wal, wf (Txn.mk wal db' ∅).
Proof.
  intros Hwf Hdb wal. split; cbn [Txn.db Txn.writeSet]; intros k *;
    rewrite ?lookup_empty; try done.
  rewrite Hdb. unfold applied.
  destruct (Txn.writeSet txn !! k) as [rl|] eqn:Hk.
  - case_decide; [done|]. intros [= <-]. by eapply (wf_ws_key _ Hwf).
  - by apply (wf_db_key _ Hwf).
Qed.

Lemma commit_tail_wf seed2 txn wal1 err1 :
  wf txn → wf (commit_tail seed2 txn wal1 err1).1.
Proof.
  intros Hwf. unfold commit_tail.
  destruct err1 as [e|]; [by apply (wf_ext txn)|].
  destruct (File.Write wal1 [LCommit]) as [wal2 [n2 [e|]]]; [by apply (wf_ext txn)|].
  destruct (File.Sync wal2) as [wal3 [e|]]; [by apply (wf_ext txn)|].
  destruct (apply_loop_wf seed2 txn Hwf) as (db' & -> & Hdb).
  by eapply applied_wf.
Qed.

Lemma Commit_wf seed1 seed2 txn r :
  wf txn → Txn.Commit seed1 seed2 txn = Done r → wf r.1.
Proof.
  intros Hwf Hc.
  destruct (decide (Txn.writeSet txn = ∅)) as [He|Hne].
  - rewrite Commit_empty in Hc by done. by injection Hc as <-.
  - destruct (Commit_nonempty seed1 seed2 txn Hne) as (wal1 & err1 & Hc' & _).
    rewrite Hc' in Hc. injection Hc as <-. by apply commit_tail_wf.
Qed.

(** [Commit] never panics. *)
Lemma Commit_Done seed1 seed2 txn : ∃ r, Txn.Commit seed1 seed2 txn = Done r.
Proof.
  destruct (decide (Txn.writeSet txn = ∅)) as [He|Hne].
  - eexists. by apply Commit_empty.
  - destruct (Commit_nonempty seed1 seed2 txn Hne) as (wal1 & err1 & Hc' & _).
    by eexists.
Qed.

Lemma step_wf o txn txn' : wf txn → step o txn = Done txn' → wf txn'.
Proof.
  intros Hwf Hs. destruct o; cbn [step] in Hs.
  - by injection Hs as <-.
  - injection Hs as <-. by apply Insert_wf.
  - injection Hs as <-. by apply Update_wf.
  - injection Hs as <-. by apply Delete_wf.
  - destruct (Txn.Commit seed1 seed2 txn) as [r|msg] eqn:Hc; [|done].
    rewrite bind_Done in Hs. injection Hs as <-. by eapply Commit_wf.
  - injection Hs as <-. by apply Abort_wf.
Qed.

(** Every engine state is well formed. *)
Lemma reachable_wf txn : reachable txn → wf txn.
Proof.
  induction 1 as [wal|o txn txn' _ IH Hs]; [apply wf_NewTxn | by eapply step_wf].
Qed.

(** ** The demonstration run *)

Lemma demo_pending_reachable : reachable demo_pending.
Proof.
  apply (reachable_step (OpInsert "key3" value3) (Txn.Insert (Txn.NewTxn demo_wal) "key1" value1).1);
    [|reflexivity].
  apply (reachable_step (OpInsert "key1" value1) (Txn.NewTxn demo_wal)); [|reflexivity].
  apply reachable_new.
Qed.

(** The run of [main], as the spec lists it among its testable
    properties. *)
Example main_scenario :
  let txn1 := (Txn.Insert (Txn.NewTxn demo_wal) "key1" value1).1 in
  Txn.Insert (Txn.NewTxn demo_wal) "key1" value1 = (txn1, None)
  ∧ Txn.Read txn1 "key1" = (value1, None)
  ∧ Txn.Read txn1 "key2" = ([], Some ErrNotExist)
  ∧ Txn.Insert txn1 "key3" value3 = (demo_pending, None)
  ∧ Txn.Commit [] [] demo_pending = Done (demo_committed, None)
  ∧ Txn.Insert demo_committed "key1" value1 = (demo_committed, Some ErrExist)
  ∧ Txn.Read demo_committed "key1" = (value1, None)
  ∧ Txn.Read demo_committed "key3" = (value3, None).
Proof. vm_compute. repeat split; reflexivity. Qed.

(** * The claims *)

Lemma failure_at_drop f f' n i :
  File.script f' = drop n (File.script f) → failure_at f' i = failure_at f (n + i).
Proof. intros H. unfold failure_at. by rewrite H, lookup_drop. Qed.

(** The log of a [Commit] that succeeded on a write-set that is not empty:
    the entries in the order of the first loop, then the marker; the second
    loop met pending actions only. *)
Lemma Commit_success_log seed1 seed2 txn txn' :
  Txn.writeSet txn ≠ ∅ →
  Txn.Commit seed1 seed2 txn = Done (txn', None) →
  File.data (Txn.wal txn') =
    File.data (Txn.wal txn)
      ++ concat (map (λ kr, RecordLog_wire kr.2) (range seed1 (Txn.writeSet txn)))
      ++ [LCommit]
  ∧ Forall (λ kr, pending_action (RecordLog.Action kr.2)) (range seed2 (Txn.writeSet txn)).
Proof.
  intros Hne Hc.
  destruct (Commit_nonempty seed1 seed2 txn Hne) as (wal1 & err1 & Hc' & Hspec).
  rewrite Hc' in Hc. injection Hc as Hc. unfold commit_tail in Hc.
  destruct err1 as [e|]; [done|]. destruct Hspec as (_ & _ & Hdata & _).
  unfold File.Write, File.Sync in Hc.
  destruct (File.script wal1) as [|[|n c] rest]; cbn in Hc; try done.
  - destruct (Txn.apply_loop _ _ _) as [[db' ws'] err] eqn:Hloop.
    injection Hc as <- ->. cbn [Txn.wal File.data]. split.
    + by rewrite Hdata, <- app_assoc.
    + by eapply apply_loop_pending.
  - destruct rest as [|[|n c] rest]; cbn in Hc; try done.
    + destruct (Txn.apply_loop _ _ _) as [[db' ws'] err] eqn:Hloop.
      injection Hc as <- ->. cbn [Txn.wal File.data]. split.
      * by rewrite Hdata, <- app_assoc.
      * by eapply apply_loop_pending.
    + destruct (Txn.apply_loop _ _ _) as [[db' ws'] err] eqn:Hloop.
      injection Hc as <- ->. cbn [Txn.wal File.data]. split.
      * by rewrite Hdata, <- app_assoc.
      * by eapply apply_loop_pending.
Qed.

(** C1: on every engine state, a [Commit] that returns success leaves the
    write-set empty and the db equal to the prior db with every pending
    entry applied: under the key of a pending Insert or Update stands the
    pending record, the key of a pending Delete is gone, every other key is
    as before.  On an empty write-set [Commit] succeeds and changes
    nothing. *)
Theorem Commit_success_applies seed1 seed2 txn :
  reachable txn →
  (∀ txn', Txn.Commit seed1 seed2 txn = Done (txn', None) →
     Txn.writeSet txn' = ∅ ∧
     ∀ k, Txn.db txn' !! k = applied (Txn.writeSet txn !! k) (Txn.db txn !! k))
  ∧ (Txn.writeSet txn = ∅ → Txn.Commit seed1 seed2 txn = Done (txn, None)).
Proof.
  intros Hwf%reachable_wf. split; [|apply Commit_empty].
  intros txn' Hc.
  destruct (decide (Txn.writeSet txn = ∅)) as [He|Hne].
  - rewrite Commit_empty in Hc by done. injection Hc as <-.
    split; [done|]. intros k. by rewrite He, lookup_empty.
  - destruct (Commit_nonempty seed1 seed2 txn Hne) as (wal1 & err1 & Hc' & _).
    rewrite Hc' in Hc. injection Hc as Hc. unfold commit_tail in Hc.
    destruct err1 as [e|]; [done|].
    destruct (File.Write wal1 [LCommit]) as [wal2 [n2 [e|]]]; [done|].
    destruct (File.Sync wal2) as [wal3 [e|]]; [done|].
    destruct (apply_loop_wf seed2 txn Hwf) as (db' & Hloop & Hdb).
    rewrite Hloop in Hc. by injection Hc as <-.
Qed.

Lemma Commit_success_applies_witness :
  Txn.writeSet demo_committed = ∅ ∧
  ∀ k, Txn.db demo_committed !! k =
       applied (Txn.writeSet demo_pending !! k) (Txn.db demo_pending !! k).
Proof.
  apply (proj1 (Commit_success_applies [] [] demo_pending demo_pending_reachable)).
  vm_compute. reflexivity.
Defined.

(** C2: when a pending entry does not fit the buffer, or one of the system
    calls of [Commit] on the log (the write of each entry, the write of the
    marker, the sync) fails, [Commit] returns that error: [ErrBufferShort]
    for an entry that does not fit, or the error of the first system call
    that failed; the db and the write-set are as they were before the
    call. *)
Theorem Commit_failure_atomic seed1 seed2 txn :
  Txn.writeSet txn ≠ ∅ →
  (∃ k rl, Txn.writeSet txn !! k = Some rl ∧ ¬ fits rl) ∨
  (∃ i e, (i < size (Txn.writeSet txn) + 2)%nat ∧ failure_at (Txn.wal txn) i = Some e) →
  ∃ wal' e,
    Txn.Commit seed1 seed2 txn =
      Done ({| Txn.wal := wal'; Txn.db := Txn.db txn; Txn.writeSet := Txn.writeSet txn |},
            Some e) ∧
    ((e = ErrBufferShort ∧ ∃ k rl, Txn.writeSet txn !! k = Some rl ∧ ¬ fits rl) ∨
     (∃ i, (i < size (Txn.writeSet txn) + 2)%nat ∧ failure_at (Txn.wal txn) i = Some e ∧
           ∀ j, (j < i)%nat → failure_at (Txn.wal txn) j = None)).
Proof.
  intros Hne Hev.
  destruct (Commit_nonempty seed1 seed2 txn Hne) as (wal1 & err1 & -> & Hspec).
  unfold commit_tail. destruct err1 as [e|].
  - exists wal1, e. split; [done|].
    destruct Hspec as [[-> Hex]|(i & Hi & Hf & Hb)].
    + left. split; [done|]. apply Exists_exists in Hex as ([k rl] & Hin & Hfit).
      exists k, rl. split; [|done]. by apply elem_of_range in Hin.
    + right. exists i. split; [lia|]. done.
  - destruct Hspec as (Hall & Hno & Hdata & Hscript).
    assert (∃ i e, (size (Txn.writeSet txn) ≤ i < size (Txn.writeSet txn) + 2)%nat ∧
                   failure_at (Txn.wal txn) i = Some e) as (i & e & Hi & Hf).
    { destruct Hev as [(k & rl & Hk & Hfit)|(i & e & Hi & Hf)].
      - exfalso. apply Hfit. rewrite Forall_forall in Hall.
        apply (Hall (k, rl)). by apply elem_of_range.
      - exists i, e. split; [|done]. split; [|lia].
        destruct (decide (i < size (Txn.writeSet txn))%nat) as [Hlt|]; [|lia].
        rewrite (Hno i Hlt) in Hf. done. }
    pose proof (failure_at_drop _ _ _ 0 Hscript) as H0.
    pose proof (failure_at_drop _ _ _ 1 Hscript) as H1.
    rewrite Nat.add_0_r in H0.
    destruct (failure_at wal1 0) as [e0|] eqn:Hw.
    + destruct (File_Write_fail wal1 [LCommit] e0 Hw) as [n ->].
      eexists _, e0. split; [done|]. right.
      exists (size (Txn.writeSet txn)). split; [lia|]. split; [done|]. apply Hno.
    + rewrite File_Write_ok by done.
      assert (i = (size (Txn.writeSet txn) + 1)%nat) as ->.
      { destruct (decide (i = size (Txn.writeSet txn))) as [->|]; [|lia].
        rewrite <- H0 in Hf. done. }
      rewrite File_Sync_fail with (e := e).
      2:{ rewrite failure_at_S. rewrite <- Hf, <- H1. by destruct wal1. }
      eexists _, e. split; [done|]. right.
      exists (size (Txn.writeSet txn) + 1)%nat. split; [lia|]. split; [done|].
      intros j Hj. destruct (decide (j < size (Txn.writeSet txn))%nat); [by apply Hno|].
      assert (j = size (Txn.writeSet txn)) as -> by lia. by rewrite <- H0.
Qed.

Lemma Commit_failure_atomic_witness :
  ∃ wal' e,
    Txn.Commit [] [] demo_sync_fails =
      Done ({| Txn.wal := wal'; Txn.db := Txn.db demo_sync_fails;
               Txn.writeSet := Txn.writeSet demo_sync_fails |}, Some e) ∧
    ((e = ErrBufferShort ∧
      ∃ k rl, Txn.writeSet demo_sync_fails !! k = Some rl ∧ ¬ fits rl) ∨
     (∃ i, (i < size (Txn.writeSet demo_sync_fails) + 2)%nat ∧
           failure_at (Txn.wal demo_sync_fails) i = Some e ∧
           ∀ j, (j < i)%nat → failure_at (Txn.wal demo_sync_fails) j = None)).
Proof.
  apply (Commit_failure_atomic [] [] demo_sync_fails).
  - vm_compute. discriminate.
  - right. exists 3%nat, (ErrIO 5). split; [vm_compute; lia | reflexivity].
Defined.

(** C4: a [Commit] that succeeds on a write-set that is not empty appends
    to the log the serialization of every pending entry, one for each key of
    the write-set and each an Insert, Update or Delete, in some order,
    followed by the single byte [0x05], and nothing else; a [Commit] of an
    empty write-set and [Abort] append nothing. *)
Theorem Commit_log_contents seed1 seed2 txn :
  (Txn.writeSet txn ≠ ∅ →
   ∀ txn', Txn.Commit seed1 seed2 txn = Done (txn', None) →
     ∃ entries,
       entries ≡ₚ map_to_list (Txn.writeSet txn) ∧
       Forall (λ kr, pending_action (RecordLog.Action kr.2)) entries ∧
       File.data (Txn.wal txn') =
         File.data (Txn.wal txn) ++ concat (map (λ kr, RecordLog_wire kr.2) entries) ++ [x05])
  ∧ (Txn.writeSet txn = ∅ → Txn.Commit seed1 seed2 txn = Done (txn, None))
  ∧ Txn.wal (Txn.Abort txn) = Txn.wal txn.
Proof.
  split; [|split; [apply Commit_empty | done]].
  intros Hne txn' Hc.
  destruct (Commit_success_log _ _ _ _ Hne Hc) as [Hdata Hpend].
  exists (range seed1 (Txn.writeSet txn)). split; [apply range_perm|]. split; [|done].
  rewrite range_perm in Hpend. by rewrite range_perm.
Qed.

Lemma Commit_log_contents_witness :
  ∃ entries,
    entries ≡ₚ map_to_list (Txn.writeSet demo_pending) ∧
    Forall (λ kr, pending_action (RecordLog.Action kr.2)) entries ∧
    File.data (Txn.wal demo_committed) =
      File.data (Txn.wal demo_pending)
        ++ concat (map (λ kr, RecordLog_wire kr.2) entries) ++ [x05].
Proof.
  apply (proj1 (Commit_log_contents [] [] demo_pending)).
  - vm_compute. discriminate.
  - vm_compute. reflexivity.
Defined.

(** C5, as the code has it: for every action tag above [LRead], that is
    from [LCommit] = 5 on, [RecordLog.Serialize] into a buffer of at least
    one byte stores the tag in the first byte, leaves the other bytes alone
    and returns 1. *)
Theorem RecordLog_Serialize_marker r buf :
  5 ≤ byte_to_Z (RecordLog.Action r) → 1 ≤ len buf →
  RecordLog.Serialize r buf = Done (RecordLog.Action r :: drop 1 buf, (1, None)).
Proof.
  intros Ha Hlen. apply RecordLog_Serialize_tag; [|lia].
  change (byte_to_Z LRead) with 4. lia.
Qed.

Lemma RecordLog_Serialize_marker_witness :
  RecordLog.Serialize {| RecordLog.Action := LAbort; RecordLog.Record := Record.zero |}
    [x00; x07] = Done ([x06; x07], (1, None)).
Proof.
  apply (RecordLog_Serialize_marker
           {| RecordLog.Action := LAbort; RecordLog.Record := Record.zero |} [x00; x07]).
  - vm_compute. discriminate.
  - vm_compute. discriminate.
Defined.

(** C5 fails at the tag [LRead] = 4: the record follows the tag, and a
    buffer of one byte is too short. *)
Lemma RecordLog_Serialize_Read_payload :
  let r := {| RecordLog.Action := LRead;
              RecordLog.Record := {| Record.Key := "k"; Record.Value := [x76] |} |} in
  4 ≤ byte_to_Z (RecordLog.Action r) ∧ 1 ≤ len (replicate 9 x00) ∧
  RecordLog.Serialize r (replicate 9 x00) =
    Done ([x04; x01; x00; x00; x00; x01; x6b; x76; x00], (8, None)) ∧
  RecordLog.Serialize r [x00] = Done ([x00], (0, Some ErrBufferShort)).
Proof. vm_compute. split; [discriminate|]. split; [discriminate|]. split; reflexivity. Qed.

(** Round trip of the record codec for keys of at most 250 bytes. *)
Lemma Record_roundtrip r r0 buf :
  len (list_byte_of_string (Record.Key r)) ≤ 250 →
  len (Record.Value r) < 2 ^ 32 →
  len (Record_wire r) ≤ len buf →
  ∃ buf',
    Record.Serialize r buf = Done (buf', (len (Record_wire r), None)) ∧
    Record.Deserialize r0 buf' = Done (r, (len (Record_wire r), None)).
Proof.
  intros Hk Hv Hbuf. eexists. split; [by apply Record_Serialize_fits|].
  rewrite Record_Deserialize_wire by lia. by rewrite bool_decide_true.
Qed.

(** For keys of 251 to 255 bytes [Deserialize] panics on what [Serialize]
    wrote. *)
Lemma Record_roundtrip_panics r r0 buf :
  250 < len (list_byte_of_string (Record.Key r)) ≤ 255 →
  len (Record.Value r) < 2 ^ 32 →
  len (Record_wire r) ≤ len buf →
  ∃ buf',
    Record.Serialize r buf = Done (buf', (len (Record_wire r), None)) ∧
    Record.Deserialize r0 buf' = Panic "slice bounds out of range".
Proof.
  intros Hk Hv Hbuf. eexists. split; [by apply Record_Serialize_fits|].
  rewrite Record_Deserialize_wire by lia. by rewrite bool_decide_false by lia.
Qed.

(** C3 at a key of 251 bytes and an empty value: [Serialize] fills the 256
    bytes and [Deserialize] panics on them, where the claim has it return
    the record and 256. *)
Theorem Record_roundtrip_long_key :
  let r := {| Record.Key := long_key; Record.Value := [] |} in
  len (list_byte_of_string (Record.Key r)) = 251 ∧
  ∃ buf',
    Record.Serialize r (replicate 256 x00) = Done (buf', (256, None)) ∧
    Record.Deserialize Record.zero buf' = Panic "slice bounds out of range".
Proof.
  split; [by vm_compute|].
  eexists. split; [vm_compute; reflexivity | vm_compute; reflexivity].
Qed.

(** C8: [Serialize] into a buffer shorter than [5 + len(key) + len(value)]
    returns [ErrBufferShort] and leaves the buffer as it was; [Deserialize]
    from fewer than 5 bytes, or from a buffer shorter than the total
    [5 + key_len + value_len] its header declares, returns
    [ErrBufferShort]. *)
Theorem Record_buffer_short r buf :
  (len buf < 5 + len (list_byte_of_string (Record.Key r)) + len (Record.Value r) →
   Record.Serialize r buf = Done (buf, (0, Some ErrBufferShort)))
  ∧ (len buf < 5 → Record.Deserialize r buf = Done (r, (0, Some ErrBufferShort)))
  ∧ (∀ key_len v0 v1 v2 v3 rest,
       buf = key_len :: v0 :: v1 :: v2 :: v3 :: rest →
       len buf < 5 + byte_to_Z key_len
                 + (byte_to_Z v0 * 2 ^ 24 + byte_to_Z v1 * 2 ^ 16
                    + byte_to_Z v2 * 2 ^ 8 + byte_to_Z v3) →
       Record.Deserialize r buf = Done (r, (0, Some ErrBufferShort))).
Proof.
  split; [|split].
  - intros H. apply Record_Serialize_short. by rewrite Record_wire_len.
  - intros H. unfold Record.Deserialize. by rewrite bool_decide_true.
  - intros key_len v0 v1 v2 v3 rest -> H. unfold Record.Deserialize.
    rewrite bool_decide_false by len_lia.
    rewrite index_0, bind_Done.
    rewrite (slice_Done _ 1) by len_lia. rewrite bind_Done.
    replace (take _ (drop (Z.to_nat 1) _)) with (v0 :: v1 :: v2 :: v3 :: rest);
      last (cbn [Z.to_nat Pos.to_nat Pos.iter_op Nat.add drop]; rewrite take_ge; [done | len_lia]).
    rewrite Uint32_sum, bind_Done. by rewrite bool_decide_true.
Qed.

Lemma Record_buffer_short_witness :
  Record.Serialize {| Record.Key := "k"; Record.Value := [x76] |} [x01; x02; x03]
    = Done ([x01; x02; x03], (0, Some ErrBufferShort))
  ∧ Record.Deserialize Record.zero [x01; x02; x03] = Done (Record.zero, (0, Some ErrBufferShort))
  ∧ Record.Deserialize Record.zero [x01; x00; x00; x00; x02; x6b; x76]
    = Done (Record.zero, (0, Some ErrBufferShort)).
Proof.
  destruct (Record_buffer_short {| Record.Key := "k"; Record.Value := [x76] |}
              [x01; x02; x03]) as (Hs & _ & _).
  destruct (Record_buffer_short Record.zero [x01; x02; x03]) as (_ & Hd & _).
  destruct (Record_buffer_short Record.zero [x01; x00; x00; x00; x02; x6b; x76])
    as (_ & _ & Hh).
  split; [apply Hs; vm_compute; reflexivity|].
  split; [apply Hd; vm_compute; reflexivity|].
  apply (Hh x01 x00 x00 x00 x02 [x6b; x76]); [reflexivity | vm_compute; reflexivity].
Defined.

(** C6: on every engine state, [Insert] of a key whose pending action is
    Delete succeeds and puts a pending Update with the new value in the
    place of that entry; [Insert] of a key with any other pending action
    returns [ErrExist] and changes nothing. *)
Theorem Insert_over_pending txn key value r :
  reachable txn →
  Txn.writeSet txn !! key = Some r →
  (RecordLog.Action r = LDelete →
   Txn.Insert txn key value =
     ({| Txn.wal := Txn.wal txn; Txn.db := Txn.db txn;
         Txn.writeSet :=
           <[key := {| RecordLog.Action := LUpdate;
                       RecordLog.Record := {| Record.Key := key; Record.Value := value |} |}]>
             (Txn.writeSet txn) |}, None))
  ∧ (RecordLog.Action r ≠ LDelete → Txn.Insert txn key value = (txn, Some ErrExist)).
Proof.
  intros Hwf%reachable_wf Hr. unfold Txn.Insert. rewrite Hr. split; intros Ha.
  - rewrite decide_False by (intros ?; done).
    by rewrite (wf_ws_key _ Hwf _ _ Hr), clone_id.
  - by rewrite decide_True.
Qed.

Lemma demo_committed_reachable : reachable demo_committed.
Proof.
  apply (reachable_step (OpCommit [] []) demo_pending);
    [apply demo_pending_reachable | vm_compute; reflexivity].
Qed.

Lemma demo_deleted_reachable : reachable demo_deleted.
Proof.
  apply (reachable_step (OpDelete "key1") demo_committed);
    [apply demo_committed_reachable | reflexivity].
Qed.

Lemma Insert_over_pending_witness :
  Txn.Insert demo_deleted "key1" [x32] =
    ({| Txn.wal := Txn.wal demo_deleted; Txn.db := Txn.db demo_deleted;
        Txn.writeSet :=
          <["key1"%string :=
              {| RecordLog.Action := LUpdate;
                 RecordLog.Record := {| Record.Key := "key1"; Record.Value := [x32] |} |}]>
            (Txn.writeSet demo_deleted) |}, None)
  ∧ Txn.Insert demo_pending "key1" [x32] = (demo_pending, Some ErrExist).
Proof.
  split.
  - apply (proj1 (Insert_over_pending demo_deleted "key1" [x32]
                    {| RecordLog.Action := LDelete;
                       RecordLog.Record := {| Record.Key := "key1"; Record.Value := [] |} |}
                    demo_deleted_reachable ltac:(vm_compute; reflexivity)));
      reflexivity.
  - apply (proj2 (Insert_over_pending demo_pending "key1" [x32]
                    {| RecordLog.Action := LInsert;
                       RecordLog.Record := {| Record.Key := "key1"; Record.Value := value1 |} |}
                    demo_pending_reachable ltac:(vm_compute; reflexivity)));
      discriminate.
Defined.

(** C7: on every engine state, [Delete] of a key whose pending action is
    Insert succeeds and removes the entry from the write-set; the db is as
    before.  Afterwards [Read] of the key returns [ErrNotExist] when the db
    has no record for it, and the log of a [Commit] that succeeds has grown
    by the serializations of the entries left in the write-set, one for each
    and in some order, none of them for the key (and by the marker, when
    there are any). *)
Theorem Delete_pending_Insert txn key r :
  reachable txn →
  Txn.writeSet txn !! key = Some r →
  RecordLog.Action r = LInsert →
  let txn' := {| Txn.wal := Txn.wal txn; Txn.db := Txn.db txn;
                 Txn.writeSet := delete key (Txn.writeSet txn) |} in
  Txn.Delete txn key = (txn', None)
  ∧ Txn.writeSet txn' !! key = None
  ∧ (Txn.db txn !! key = None → Txn.Read txn' key = ([], Some ErrNotExist))
  ∧ (∀ seed1 seed2 txn'',
       Txn.Commit seed1 seed2 txn' = Done (txn'', None) →
       ∃ entries,
         entries ≡ₚ map_to_list (Txn.writeSet txn') ∧
         Forall (λ kr, kr.1 ≠ key ∧ RecordLog.Key kr.2 ≠ key) entries ∧
         File.data (Txn.wal txn'') =
           File.data (Txn.wal txn)
             ++ concat (map (λ kr, RecordLog_wire kr.2) entries)
             ++ (if decide (entries = []) then [] else [x05])).
Proof.
  intros Hreach Hr Ha txn'.
  assert (Hdel : Txn.Delete txn key = (txn', None)).
  { unfold Txn.Delete. rewrite Hr.
    rewrite decide_False by (rewrite Ha; done). by rewrite decide_True. }
  assert (Hwf' : wf txn').
  { change txn' with (txn', @None error).1. rewrite <- Hdel.
    by apply Delete_wf, reachable_wf. }
  split; [done|]. split; [apply lookup_delete_eq|]. split.
  - intros Hdb. unfold Txn.Read. cbn [Txn.writeSet Txn.db txn'].
    by rewrite lookup_delete_eq, Hdb.
  - intros seed1 seed2 txn'' Hc.
    destruct (decide (Txn.writeSet txn' = ∅)) as [He|Hne].
    + rewrite Commit_empty in Hc by done. injection Hc as <-.
      exists []. split; [by rewrite He, map_to_list_empty|].
      split; [constructor|]. cbn. by rewrite app_nil_r.
    + destruct (Commit_success_log _ _ _ _ Hne Hc) as [Hdata _].
      exists (range seed1 (Txn.writeSet txn')). split; [apply range_perm|]. split.
      * apply Forall_forall. intros [k rl] Hin%elem_of_range.
        cbn [fst snd]. rewrite (wf_ws_key _ Hwf' _ _ Hin).
        cbn [Txn.writeSet txn'] in Hin. apply lookup_delete_Some in Hin as [? _].
        by split.
      * rewrite decide_False; [done|].
        intros Hnil. apply Hne. apply map_size_empty_iff.
        by rewrite <- (length_range seed1), Hnil.
Qed.

Lemma demo_one_pending_reachable : reachable demo_one_pending.
Proof.
  apply (reachable_step (OpInsert "key2" [x32]) demo_committed);
    [apply demo_committed_reachable | reflexivity].
Qed.

Lemma Delete_pending_Insert_witness :
  let txn' := {| Txn.wal := Txn.wal demo_pending; Txn.db := Txn.db demo_pending;
                 Txn.writeSet := delete "key1" (Txn.writeSet demo_pending) |} in
  Txn.Delete demo_pending "key1" = (txn', None)
  ∧ Txn.Read txn' "key1" = ([], Some ErrNotExist)
  ∧ ∃ entries,
      entries ≡ₚ map_to_list (Txn.writeSet txn') ∧
      Forall (λ kr, kr.1 ≠ "key1"%string ∧ RecordLog.Key kr.2 ≠ "key1"%string) entries ∧
      [x01; x04; x00; x00; x00; x06; x6b; x65; x79; x33] ++ value3 ++ [x05] =
        File.data (Txn.wal demo_pending)
          ++ concat (map (λ kr, RecordLog_wire kr.2) entries)
          ++ (if decide (entries = []) then [] else [x05]).
Proof.
  intros txn'.
  destruct (Delete_pending_Insert demo_pending "key1"
              {| RecordLog.Action := LInsert;
                 RecordLog.Record := {| Record.Key := "key1"; Record.Value := value1 |} |}
              demo_pending_reachable ltac:(vm_compute; reflexivity) ltac:(reflexivity))
    as (Hdel & _ & Hread & Hlog).
  split; [exact Hdel|]. split; [apply Hread; reflexivity|].
  apply (Hlog [] []
           {| Txn.wal :=
                {| File.data :=
                     [x01; x04; x00; x00; x00; x06; x6b; x65; x79; x33] ++ value3 ++ [x05];
                   File.script := [] |};
              Txn.db := <["key3"%string := Record.mk "key3" value3]> ∅;
              Txn.writeSet := ∅ |}).
  vm_compute. reflexivity.
Defined.

(** C9: in every engine state each entry of the write-set has action
    Insert, Update or Delete; hence [Read] never returns through its
    "unexpected action in writeSet" branch and [Commit] never through the
    "unexpected action" branch of its second loop. *)
Theorem reachable_pending_actions txn :
  reachable txn →
  (∀ k rl, Txn.writeSet txn !! k = Some rl →
     RecordLog.Action rl = LInsert ∨ RecordLog.Action rl = LUpdate ∨
     RecordLog.Action rl = LDelete)
  ∧ (∀ key a, (Txn.Read txn key).2 ≠ Some (ErrUnexpectedWriteSetAction a))
  ∧ (∀ seed1 seed2 txn' a,
       Txn.Commit seed1 seed2 txn ≠ Done (txn', Some (ErrUnexpectedAction a))).
Proof.
  intros Hwf%reachable_wf. split; [apply (wf_action _ Hwf)|]. split.
  - intros key a. unfold Txn.Read.
    destruct (Txn.writeSet txn !! key) as [r|] eqn:Hr.
    + destruct (wf_action _ Hwf _ _ Hr) as [Ha|[Ha|Ha]]; rewrite Ha.
      * by rewrite decide_False, decide_True by (done || by left).
      * by rewrite decide_False, decide_True by (done || by right).
      * by rewrite decide_True.
    + by destruct (Txn.db txn !! key).
  - intros seed1 seed2 txn' a Hc.
    destruct (decide (Txn.writeSet txn = ∅)) as [He|Hne].
    + by rewrite Commit_empty in Hc.
    + destruct (Commit_nonempty seed1 seed2 txn Hne) as (wal1 & err1 & Hc' & Hspec).
      rewrite Hc' in Hc. injection Hc as Hc. unfold commit_tail in Hc.
      destruct err1 as [e|].
      * injection Hc as _ ->.
        destruct Hspec as [[? _]|(i & _ & Hf & _)]; [done|].
        unfold failure_at in Hf. by destruct (_ !! i) as [[|??]|].
      * unfold File.Write, File.Sync in Hc.
        destruct (apply_loop_wf seed2 txn Hwf) as (db' & Hloop & _).
        rewrite Hloop in Hc.
        destruct (File.script wal1) as [|[|n c] [|[|n' c'] rest]]; by cbn in Hc.
Qed.

Lemma reachable_pending_actions_witness :
  let rl := {| RecordLog.Action := LDelete;
               RecordLog.Record := {| Record.Key := "key1"; Record.Value := [] |} |} in
  Txn.writeSet demo_deleted !! "key1"%string = Some rl
  ∧ (RecordLog.Action rl = LInsert ∨ RecordLog.Action rl = LUpdate ∨
     RecordLog.Action rl = LDelete).
Proof.
  intros rl.
  assert (Hrl : Txn.writeSet demo_deleted !! "key1"%string = Some rl)
    by (vm_compute; reflexivity).
  split; [exact Hrl|].
  exact (proj1 (reachable_pending_actions demo_deleted demo_deleted_reachable) "key1"%string rl Hrl).
Defined.

(** C10: in every engine state the record stored under a key of the
    write-set, and likewise of the db, carries that key; a pending Insert
    means the db has no record for the key, a pending Update or Delete means
    it has one. *)
Theorem reachable_keys_consistent txn :
  reachable txn →
  (∀ k rl, Txn.writeSet txn !! k = Some rl →
     RecordLog.Key rl = k
     ∧ (RecordLog.Action rl = LInsert → Txn.db txn !! k = None)
     ∧ (RecordLog.Action rl = LUpdate ∨ RecordLog.Action rl = LDelete →
        ∃ r, Txn.db txn !! k = Some r))
  ∧ (∀ k r, Txn.db txn !! k = Some r → Record.Key r = k).
Proof.
  intros Hwf%reachable_wf. split; [|apply (wf_db_key _ Hwf)].
  intros k rl Hk. split; [by eapply wf_ws_key|]. split.
  - by apply (wf_insert _ Hwf).
  - intros Ha. by apply (wf_present _ Hwf _ _ Hk).
Qed.

Lemma reachable_keys_consistent_witness :
  let rl := {| RecordLog.Action := LDelete;
               RecordLog.Record := {| Record.Key := "key1"; Record.Value := [] |} |} in
  Txn.writeSet demo_deleted !! "key1"%string = Some rl
  ∧ RecordLog.Key rl = "key1"%string
  ∧ ∃ r, Txn.db demo_deleted !! "key1"%string = Some r.
Proof.
  intros rl.
  assert (Hrl : Txn.writeSet demo_deleted !! "key1"%string = Some rl)
    by (vm_compute; reflexivity).
  destruct (proj1 (reachable_keys_consistent demo_deleted demo_deleted_reachable)
              "key1"%string rl Hrl) as (Hkey & _ & Hpresent).
  split; [exact Hrl|]. split; [exact Hkey|].
  apply Hpresent. right. reflexivity.
Defined.

(** * Further properties *)

(** ** More on the record codec *)

Lemma u8_eq z b : z mod 256 = byte_to_Z b → u8 z = b.
Proof.
  intros H. unfold u8. rewrite H. unfold byte_to_Z.
  by rewrite N2Z.id, Byte.of_to_N.
Qed.

Lemma be32_value_range v0 v1 v2 v3 : 0 ≤ be32_value v0 v1 v2 v3 < 2 ^ 32.
Proof.
  unfold be32_value.
  pose proof (byte_to_Z_range v0). pose proof (byte_to_Z_range v1).
  pose proof (byte_to_Z_range v2). pose proof (byte_to_Z_range v3). lia.
Qed.

Lemma be32_be32_value v0 v1 v2 v3 : be32 (be32_value v0 v1 v2 v3) = [v0; v1; v2; v3].
Proof.
  unfold be32, be32_value.
  pose proof (byte_to_Z_range v0). pose proof (byte_to_Z_range v1).
  pose proof (byte_to_Z_range v2). pose proof (byte_to_Z_range v3).
  rewrite !Z.shiftr_div_pow2 by lia.
  repeat f_equal; apply u8_eq.
  - rewrite Z.mod_small; [|split; [apply Z.div_pos; lia | apply Z.div_lt_upper_bound; lia]].
    symmetry. apply Z.div_unique with
      (r := byte_to_Z v1 * 2 ^ 16 + byte_to_Z v2 * 2 ^ 8 + byte_to_Z v3); lia.
  - replace (_ / 2 ^ 16) with (byte_to_Z v0 * 256 + byte_to_Z v1).
    + symmetry. apply Z.mod_unique with (q := byte_to_Z v0); lia.
    + apply Z.div_unique with (r := byte_to_Z v2 * 2 ^ 8 + byte_to_Z v3); lia.
  - replace (_ / 2 ^ 8) with (byte_to_Z v0 * 2 ^ 16 + byte_to_Z v1 * 2 ^ 8 + byte_to_Z v2).
    + symmetry. apply Z.mod_unique with (q := byte_to_Z v0 * 2 ^ 8 + byte_to_Z v1); lia.
    + apply Z.div_unique with (r := byte_to_Z v3); lia.
  - symmetry. apply Z.mod_unique with
      (q := byte_to_Z v0 * 2 ^ 16 + byte_to_Z v1 * 2 ^ 8 + byte_to_Z v2); lia.
Qed.

(** [Deserialize] on a buffer that holds a header, case by case. *)
Lemma Record_Deserialize_cases r0 b0 v0 v1 v2 v3 rest :
  let vl := be32_value v0 v1 v2 v3 in
  let total := 5 + byte_to_Z b0 + vl in
  let buf := b0 :: v0 :: v1 :: v2 :: v3 :: rest in
  Record.Deserialize r0 buf =
  if bool_decide (len buf < total) then Done (r0, (0, Some ErrBufferShort))
  else if bool_decide (byte_to_Z b0 ≤ 250) then
    Done ({| Record.Key := string_of_list_byte (take (Z.to_nat (byte_to_Z b0)) rest);
             Record.Value := take (Z.to_nat vl) (drop (Z.to_nat (byte_to_Z b0)) rest) |},
          (total, None))
  else Panic "slice bounds out of range".
Proof.
  intros vl total buf.
  pose proof (byte_to_Z_range b0) as Hb. pose proof (be32_value_range v0 v1 v2 v3) as Hv.
  fold vl in Hv. pose proof (len_nonneg rest) as Hrest.
  assert (Hbuf : len buf = 5 + len rest) by (unfold buf; len_lia).
  subst buf.
  unfold Record.Deserialize. rewrite bool_decide_false by lia.
  rewrite index_0, bind_Done.
  rewrite (slice_Done _ 1) by lia. rewrite bind_Done.
  replace (take _ (drop (Z.to_nat 1) _)) with (v0 :: v1 :: v2 :: v3 :: rest);
    last (cbn [Z.to_nat Pos.to_nat Pos.iter_op Nat.add drop];
          rewrite take_ge; [done | len_lia]).
  rewrite Uint32_sum, bind_Done. fold (be32_value v0 v1 v2 v3). fold vl. fold total.
  case_bool_decide as Hshort; [done|].
  rewrite byte_to_Z_u8.
  case_bool_decide as Hk.
  - rewrite (Z.mod_small (5 + byte_to_Z b0)) by lia.
    rewrite (slice_Done _ 5) by lia. rewrite bind_Done.
    rewrite slice_Done by (unfold total in *; lia). rewrite bind_Done.
    cbn [Record.Key Record.Value]. do 2 f_equal. f_equal.
    + f_equal. replace (Z.to_nat 5) with 5%nat by lia. cbn [drop].
      rewrite drop_0. f_equal. lia.
    + replace (Z.to_nat (5 + byte_to_Z b0)) with (5 + Z.to_nat (byte_to_Z b0))%nat by lia.
      cbn [drop Nat.add].
      replace (Z.to_nat (total - (5 + byte_to_Z b0))) with (Z.to_nat vl) by (unfold total; lia).
      rewrite copy_le.
      * rewrite (drop_ge (replicate _ _)); [apply app_nil_r|].
        rewrite length_replicate, length_take, length_drop. unfold total in *. len_lia.
      * rewrite length_replicate, length_take. lia.
  - rewrite (slice_Panic _ 5); [reflexivity|].
    replace ((5 + byte_to_Z b0) mod 256) with (5 + byte_to_Z b0 - 256); [lia|].
    apply Z.mod_unique with (q := 1); lia.
Qed.

Lemma Record_Deserialize_short r0 buf :
  len buf < 5 → Record.Deserialize r0 buf = Done (r0, (0, Some ErrBufferShort)).
Proof. intros H. unfold Record.Deserialize. by rewrite bool_decide_true. Qed.

Lemma buffer_header (buf : list byte) :
  5 ≤ len buf → ∃ b0 v0 v1 v2 v3 rest, buf = b0 :: v0 :: v1 :: v2 :: v3 :: rest.
Proof.
  intros H. destruct buf as [|b0 [|v0 [|v1 [|v2 [|v3 rest]]]]]; try len_lia.
  by exists b0, v0, v1, v2, v3, rest.
Qed.

(** X1: for a record whose key has at most 250 bytes and whose value has
    fewer than [2^32], [Record.Serialize] into a buffer of at least
    [5 + len(key) + len(value)] bytes followed by [Record.Deserialize] of
    that buffer returns the record, and both return the count
    [5 + len(key) + len(value)]. *)
Theorem Record_codec_roundtrip r r0 buf :
  let n := 5 + len (list_byte_of_string (Record.Key r)) + len (Record.Value r) in
  len (list_byte_of_string (Record.Key r)) ≤ 250 →
  len (Record.Value r) < 2 ^ 32 →
  n ≤ len buf →
  ∃ buf',
    Record.Serialize r buf = Done (buf', (n, None)) ∧
    Record.Deserialize r0 buf' = Done (r, (n, None)).
Proof.
  intros n Hk Hv Hbuf. unfold n in *. rewrite <- Record_wire_len in *.
  eexists. split; [by apply Record_Serialize_fits|].
  rewrite Record_Deserialize_wire by lia. by rewrite bool_decide_true.
Qed.

Lemma Record_codec_roundtrip_witness :
  ∃ buf',
    Record.Serialize {| Record.Key := "k"; Record.Value := [x76] |} (replicate 8 x07)
      = Done (buf', (7, None)) ∧
    Record.Deserialize Record.zero buf'
      = Done ({| Record.Key := "k"; Record.Value := [x76] |}, (7, None)).
Proof.
  apply (Record_codec_roundtrip {| Record.Key := "k"; Record.Value := [x76] |} Record.zero
           (replicate 8 x07)).
  - vm_compute. discriminate.
  - vm_compute. reflexivity.
  - vm_compute. discriminate.
Defined.

(** X2: [Record.Serialize] into a buffer of at least
    [5 + len(key) + len(value)] bytes returns that number and writes, from
    the start of the buffer, the low byte of the key length, the low 32 bits
    of the value length in big-endian order, the key and the value; the bytes
    of the buffer behind them stay as they were. *)
Theorem Record_Serialize_layout r buf :
  let key := list_byte_of_string (Record.Key r) in
  let value := Record.Value r in
  5 + len key + len value ≤ len buf →
  Record.Serialize r buf =
  Done (u8 (len key) :: be32 (u32 (len value)) ++ key ++ value
          ++ drop (5 + length key + length value) buf,
        (5 + len key + len value, None)).
Proof.
  intros key value Hlen.
  rewrite Record_Serialize_fits by (by rewrite Record_wire_len).
  rewrite Record_wire_len. f_equal. f_equal.
  unfold Record_wire. fold key value.
  rewrite <- app_comm_cons, <- !app_assoc. do 4 f_equal.
  cbn [length be32]. rewrite !length_app. cbn [length]. reflexivity.
Qed.

Lemma Record_Serialize_layout_witness :
  Record.Serialize {| Record.Key := "k"; Record.Value := [x76] |} (replicate 8 x07) =
  Done ([x01; x00; x00; x00; x01; x6b; x76; x07], (7, None)).
Proof.
  apply (Record_Serialize_layout {| Record.Key := "k"; Record.Value := [x76] |}
           (replicate 8 x07)).
  vm_compute. discriminate.
Defined.

Lemma Record_Deserialize_Done_inv r0 buf r n :
  Record.Deserialize r0 buf = Done (r, (n, None)) →
  n = 5 + len (list_byte_of_string (Record.Key r)) + len (Record.Value r)
  ∧ n ≤ len buf
  ∧ buf = Record_wire r ++ drop (Z.to_nat n) buf
  ∧ len (list_byte_of_string (Record.Key r)) ≤ 250
  ∧ len (Record.Value r) < 2 ^ 32.
Proof.
  intros H.
  destruct (decide (len buf < 5)) as [Hs|Hs].
  { by rewrite Record_Deserialize_short in H. }
  destruct (buffer_header buf) as (b0 & v0 & v1 & v2 & v3 & rest & ->); [lia|].
  rewrite Record_Deserialize_cases in H.
  pose proof (byte_to_Z_range b0) as Hb. pose proof (be32_value_range v0 v1 v2 v3) as Hv.
  case_bool_decide as Hshort; [done|]. case_bool_decide as Hk; [|done].
  injection H as <- <-. cbn [Record.Key Record.Value].
  rewrite list_byte_of_string_of_list_byte.
  assert (Hlen : len (b0 :: v0 :: v1 :: v2 :: v3 :: rest) = 5 + len rest) by len_lia.
  assert (Hkl : len (take (Z.to_nat (byte_to_Z b0)) rest) = byte_to_Z b0)
    by (unfold len in *; rewrite length_take; lia).
  assert (Hvl : len (take (Z.to_nat (be32_value v0 v1 v2 v3))
                       (drop (Z.to_nat (byte_to_Z b0)) rest)) = be32_value v0 v1 v2 v3)
    by (unfold len in *; rewrite length_take, length_drop; lia).
  rewrite Hkl, Hvl. split; [done|]. split; [lia|]. split; [|lia].
  unfold Record_wire. cbn [Record.Key Record.Value].
  rewrite list_byte_of_string_of_list_byte, Hkl, Hvl.
  unfold u32. rewrite Z.mod_small by lia.
  rewrite u8_byte_to_Z, be32_be32_value. cbn [app]. do 5 f_equal.
  replace (Z.to_nat (5 + byte_to_Z b0 + be32_value v0 v1 v2 v3))
    with (5 + (Z.to_nat (byte_to_Z b0) + Z.to_nat (be32_value v0 v1 v2 v3)))%nat by lia.
  cbn [drop Nat.add]. rewrite <- app_assoc, <- drop_drop.
  by rewrite take_drop, take_drop.
Qed.

(** X3: whenever [Record.Deserialize] succeeds on a buffer, the
    count it returns is [5 + len(key) + len(value)] of the record it
    returns and is at most the length of the buffer, the buffer starts with
    exactly the bytes [Record.Serialize] writes for that record, the key has
    at most 250 bytes and the value fewer than [2^32]. *)
Theorem Record_Deserialize_success r0 buf r n :
  Record.Deserialize r0 buf = Done (r, (n, None)) →
  n = 5 + len (list_byte_of_string (Record.Key r)) + len (Record.Value r)
  ∧ n ≤ len buf
  ∧ buf = Record_wire r ++ drop (Z.to_nat n) buf
  ∧ len (list_byte_of_string (Record.Key r)) ≤ 250
  ∧ len (Record.Value r) < 2 ^ 32.
Proof. apply Record_Deserialize_Done_inv. Qed.

Lemma Record_Deserialize_success_witness :
  7 = 5 + len (list_byte_of_string "k") + len [x76]
  ∧ 7 ≤ len [x01; x00; x00; x00; x01; x6b; x76; x07]
  ∧ [x01; x00; x00; x00; x01; x6b; x76; x07] =
      Record_wire {| Record.Key := "k"; Record.Value := [x76] |}
        ++ drop (Z.to_nat 7) [x01; x00; x00; x00; x01; x6b; x76; x07]
  ∧ len (list_byte_of_string "k") ≤ 250
  ∧ len [x76] < 2 ^ 32.
Proof.
  apply (Record_Deserialize_success Record.zero [x01; x00; x00; x00; x01; x6b; x76; x07]
           {| Record.Key := "k"; Record.Value := [x76] |} 7).
  vm_compute. reflexivity.
Defined.

Lemma Record_Deserialize_error_inv r0 buf r n e :
  Record.Deserialize r0 buf = Done (r, (n, Some e)) →
  e = ErrBufferShort ∧ n = 0 ∧ r = r0
  ∧ (len buf < 5 ∨
     ∃ b0 v0 v1 v2 v3 rest,
       buf = b0 :: v0 :: v1 :: v2 :: v3 :: rest ∧
       len buf < 5 + byte_to_Z b0 + be32_value v0 v1 v2 v3).
Proof.
  intros H.
  destruct (decide (len buf < 5)) as [Hs|Hs].
  { rewrite Record_Deserialize_short in H by done. injection H as <- <- <-. auto. }
  destruct (buffer_header buf) as (b0 & v0 & v1 & v2 & v3 & rest & ->); [lia|].
  rewrite Record_Deserialize_cases in H.
  case_bool_decide as Hshort.
  - injection H as <- <- <-. do 3 (split; [done|]). right.
    by exists b0, v0, v1, v2, v3, rest.
  - by case_bool_decide.
Qed.

(** X4: whenever [Record.Deserialize] returns an error, the error is
    [ErrBufferShort], the count is 0, the receiver is as before the call, and
    the buffer has fewer than 5 bytes or fewer than its header declares. *)
Theorem Record_Deserialize_error r0 buf r n e :
  Record.Deserialize r0 buf = Done (r, (n, Some e)) →
  e = ErrBufferShort ∧ n = 0 ∧ r = r0
  ∧ (len buf < 5 ∨
     ∃ b0 v0 v1 v2 v3 rest,
       buf = b0 :: v0 :: v1 :: v2 :: v3 :: rest ∧
       len buf < 5 + byte_to_Z b0 + be32_value v0 v1 v2 v3).
Proof. apply Record_Deserialize_error_inv. Qed.

Lemma Record_Deserialize_error_witness :
  ErrBufferShort = ErrBufferShort ∧ 0 = 0 ∧ Record.zero = Record.zero
  ∧ (len [x01; x00; x00; x00; x02; x6b; x76] < 5 ∨
     ∃ b0 v0 v1 v2 v3 rest,
       [x01; x00; x00; x00; x02; x6b; x76] = b0 :: v0 :: v1 :: v2 :: v3 :: rest ∧
       len [x01; x00; x00; x00; x02; x6b; x76] < 5 + byte_to_Z b0 + be32_value v0 v1 v2 v3).
Proof.
  apply (Record_Deserialize_error Record.zero [x01; x00; x00; x00; x02; x6b; x76]).
  vm_compute. reflexivity.
Defined.

(** X5: [Record.Deserialize] panics exactly on the buffers that hold a
    header whose key length is above 250 and that are at least as long as
    the total the header declares. *)
Theorem Record_Deserialize_panics_iff r0 buf :
  (∃ msg, Record.Deserialize r0 buf = Panic msg) ↔
  ∃ b0 v0 v1 v2 v3 rest,
    buf = b0 :: v0 :: v1 :: v2 :: v3 :: rest ∧
    250 < byte_to_Z b0 ∧
    5 + byte_to_Z b0 + be32_value v0 v1 v2 v3 ≤ len buf.
Proof.
  split.
  - intros [msg H].
    destruct (decide (len buf < 5)) as [Hs|Hs].
    { by rewrite Record_Deserialize_short in H. }
    destruct (buffer_header buf) as (b0 & v0 & v1 & v2 & v3 & rest & ->); [lia|].
    rewrite Record_Deserialize_cases in H.
    case_bool_decide as Hshort; [done|]. case_bool_decide as Hk; [done|].
    exists b0, v0, v1, v2, v3, rest. split; [done|]. lia.
  - intros (b0 & v0 & v1 & v2 & v3 & rest & -> & Hk & Hlen).
    rewrite Record_Deserialize_cases.
    rewrite bool_decide_false by lia. rewrite bool_decide_false by lia. by eexists.
Qed.

(** ** The log entry decoder *)

Lemma RecordLog_Deserialize_nil r0 :
  RecordLog.Deserialize r0 [] = Done (r0, (0, Some ErrBufferShort)).
Proof. done. Qed.

(** [RecordLog.Deserialize] on a buffer that is not empty, case by case. *)
Lemma RecordLog_Deserialize_cons r0 a sub :
  RecordLog.Deserialize r0 (a :: sub) =
  if decide (a = LCommit) then Done (RecordLog.mk a (RecordLog.Record r0), (1, None))
  else if decide (pending_action a) then
    '(rec, (n, err)) ← Record.Deserialize (RecordLog.Record r0) sub;
    match err with
    | Some e => Done (RecordLog.mk a rec, (0, Some e))
    | None => Done (RecordLog.mk a rec, (1 + n, None))
    end
  else Done (RecordLog.mk a (RecordLog.Record r0), (0, Some (ErrUnsupportedAction a))).
Proof.
  unfold RecordLog.Deserialize.
  rewrite bool_decide_false by len_lia. rewrite index_0, bind_Done.
  cbn [RecordLog.Action RecordLog.Record].
  destruct (decide (a = LCommit)) as [|Hc]; [done|].
  unfold pending_action.
  destruct (decide (a = LInsert ∨ a = LUpdate ∨ a = LDelete)) as [Hp|Hp]; [|done].
  rewrite slice_Done by len_lia. rewrite bind_Done.
  cbn [Z.to_nat Pos.to_nat Pos.iter_op Nat.add drop]. rewrite ?drop_0.
  rewrite take_ge by len_lia. done.
Qed.

Lemma pending_action_payload a : pending_action a → ¬ byte_to_Z a > byte_to_Z LRead.
Proof. by intros [-> | [-> | ->]]. Qed.

Lemma pending_action_not_Commit a : pending_action a → a ≠ LCommit.
Proof. by intros [-> | [-> | ->]]. Qed.

(** X6: for an Insert, Update or Delete entry whose key has at most
    250 bytes and whose value has fewer than [2^32], [RecordLog.Serialize]
    into a buffer of at least [6 + len(key) + len(value)] bytes followed by
    [RecordLog.Deserialize] of that buffer returns the entry, and both return
    the count [6 + len(key) + len(value)]. *)
Theorem RecordLog_roundtrip r r0 buf :
  pending_action (RecordLog.Action r) →
  len (list_byte_of_string (RecordLog.Key r)) ≤ 250 →
  len (RecordLog.Value r) < 2 ^ 32 →
  6 + len (list_byte_of_string (RecordLog.Key r)) + len (RecordLog.Value r) ≤ len buf →
  ∃ buf' n,
    n = 6 + len (list_byte_of_string (RecordLog.Key r)) + len (RecordLog.Value r) ∧
    RecordLog.Serialize r buf = Done (buf', (n, None)) ∧
    RecordLog.Deserialize r0 buf' = Done (r, (n, None)).
Proof.
  intros Ha Hk Hv Hbuf. unfold RecordLog.Key, RecordLog.Value in *.
  assert (Hw : len (RecordLog_wire r) =
               6 + len (list_byte_of_string (Record.Key (RecordLog.Record r)))
                 + len (Record.Value (RecordLog.Record r))).
  { rewrite RecordLog_wire_len, bool_decide_false by (by apply pending_action_payload).
    rewrite Record_wire_len. lia. }
  eexists _, _. split; [reflexivity|]. split.
  - rewrite RecordLog_Serialize_fits by lia. by rewrite Hw.
  - unfold RecordLog_wire. rewrite bool_decide_false by (by apply pending_action_payload).
    rewrite <- app_comm_cons, RecordLog_Deserialize_cons.
    rewrite decide_False by (by apply pending_action_not_Commit).
    rewrite decide_True by done.
    rewrite Record_Deserialize_wire by lia. rewrite bool_decide_true by done.
    rewrite bind_Done. destruct r as [a rec]. cbn [RecordLog.Action RecordLog.Record].
    do 3 f_equal. rewrite Record_wire_len. cbn [RecordLog.Record]. lia.
Qed.

Lemma RecordLog_roundtrip_witness :
  let r := {| RecordLog.Action := LUpdate;
              RecordLog.Record := {| Record.Key := "k"; Record.Value := [x76] |} |} in
  ∃ buf' n,
    n = 6 + len (list_byte_of_string (RecordLog.Key r)) + len (RecordLog.Value r) ∧
    RecordLog.Serialize r (replicate 9 x07) = Done (buf', (n, None)) ∧
    RecordLog.Deserialize {| RecordLog.Action := x00; RecordLog.Record := Record.zero |} buf'
      = Done (r, (n, None)).
Proof.
  intros r.
  apply (RecordLog_roundtrip r
           {| RecordLog.Action := x00; RecordLog.Record := Record.zero |} (replicate 9 x07)).
  - right. left. reflexivity.
  - vm_compute. discriminate.
  - vm_compute. reflexivity.
  - vm_compute. discriminate.
Defined.

(** X7: [RecordLog.Serialize] of a Commit entry into a buffer that is
    not empty writes the byte 5 and returns 1; [RecordLog.Deserialize] of
    the result returns 1 and sets the action of the receiver to Commit,
    leaving its record as it was. *)
Theorem RecordLog_marker_roundtrip r r0 buf :
  RecordLog.Action r = LCommit → 1 ≤ len buf →
  RecordLog.Serialize r buf = Done (LCommit :: drop 1 buf, (1, None))
  ∧ RecordLog.Deserialize r0 (LCommit :: drop 1 buf) =
      Done ({| RecordLog.Action := LCommit; RecordLog.Record := RecordLog.Record r0 |},
            (1, None)).
Proof.
  intros Ha Hlen. split.
  - rewrite RecordLog_Serialize_tag; [by rewrite Ha | by rewrite Ha | done].
  - rewrite RecordLog_Deserialize_cons. by rewrite decide_True.
Qed.

Lemma RecordLog_marker_roundtrip_witness :
  RecordLog.Serialize {| RecordLog.Action := LCommit; RecordLog.Record := Record.zero |}
    [x00; x07] = Done ([x05; x07], (1, None))
  ∧ RecordLog.Deserialize
      {| RecordLog.Action := x00;
         RecordLog.Record := {| Record.Key := "k"; Record.Value := [x76] |} |} [x05; x07] =
      Done ({| RecordLog.Action := LCommit;
               RecordLog.Record := {| Record.Key := "k"; Record.Value := [x76] |} |},
            (1, None)).
Proof.
  apply (RecordLog_marker_roundtrip
           {| RecordLog.Action := LCommit; RecordLog.Record := Record.zero |}
           {| RecordLog.Action := x00;
              RecordLog.Record := {| Record.Key := "k"; Record.Value := [x76] |} |}
           [x00; x07]).
  - reflexivity.
  - vm_compute. discriminate.
Defined.

(** X8: what [RecordLog.Serialize] writes for an entry whose action is
    none of Insert, Update, Delete and Commit (Read and Abort among them) is
    refused by [RecordLog.Deserialize]: it returns 0 and the unsupported
    action error carrying the tag, with the action of the receiver set to
    the tag and its record as it was. *)
Theorem RecordLog_unsupported_roundtrip r r0 buf buf' n :
  RecordLog.Action r ≠ LCommit → ¬ pending_action (RecordLog.Action r) →
  RecordLog.Serialize r buf = Done (buf', (n, None)) →
  RecordLog.Deserialize r0 buf' =
    Done ({| RecordLog.Action := RecordLog.Action r; RecordLog.Record := RecordLog.Record r0 |},
          (0, Some (ErrUnsupportedAction (RecordLog.Action r)))).
Proof.
  intros Hc Hp Hs.
  destruct (decide (len buf < len (RecordLog_wire r))) as [Hshort|Hfit].
  { by rewrite RecordLog_Serialize_short in Hs. }
  rewrite RecordLog_Serialize_fits in Hs by lia. injection Hs as <- _.
  assert (∃ tl, RecordLog_wire r = RecordLog.Action r :: tl) as [tl ->].
  { unfold RecordLog_wire. case_bool_decide; by eexists. }
  rewrite <- app_comm_cons, RecordLog_Deserialize_cons.
  by rewrite !decide_False.
Qed.

Lemma RecordLog_unsupported_roundtrip_witness :
  RecordLog.Deserialize {| RecordLog.Action := x00; RecordLog.Record := Record.zero |}
    [x06; x07] =
  Done ({| RecordLog.Action := LAbort; RecordLog.Record := Record.zero |},
        (0, Some (ErrUnsupportedAction LAbort))).
Proof.
  apply (RecordLog_unsupported_roundtrip
           {| RecordLog.Action := LAbort; RecordLog.Record := Record.zero |}
           {| RecordLog.Action := x00; RecordLog.Record := Record.zero |}
           [x00; x07] [x06; x07] 1).
  - discriminate.
  - intros [H|[H|H]]; discriminate H.
  - vm_compute. reflexivity.
Defined.

(** X9: whenever [RecordLog.Deserialize] succeeds on a buffer, the
    action of the entry it returns is Commit, Insert, Update or Delete, the
    count it returns is at least 1 and at most the length of the buffer, and
    the buffer starts with exactly the bytes [RecordLog.Serialize] writes
    for that entry, as many as the count. *)
Theorem RecordLog_Deserialize_success r0 buf r n :
  RecordLog.Deserialize r0 buf = Done (r, (n, None)) →
  (RecordLog.Action r = LCommit ∨ pending_action (RecordLog.Action r))
  ∧ 1 ≤ n ≤ len buf
  ∧ n = len (RecordLog_wire r)
  ∧ buf = RecordLog_wire r ++ drop (Z.to_nat n) buf.
Proof.
  intros H. destruct buf as [|a sub]; [by rewrite RecordLog_Deserialize_nil in H|].
  rewrite RecordLog_Deserialize_cons in H.
  assert (Hlen : len (a :: sub) = 1 + len sub) by len_lia.
  pose proof (len_nonneg sub).
  destruct (decide (a = LCommit)) as [->|Hc].
  - injection H as <- <-. cbn [RecordLog.Action]. split; [by left|]. split; [lia|].
    split; reflexivity.
  - destruct (decide (pending_action a)) as [Hp|Hp]; [|done].
    destruct (Record.Deserialize (RecordLog.Record r0) sub) as [[rec [m [e|]]]|msg] eqn:Hd;
      try done.
    rewrite bind_Done in H. injection H as <- <-. cbn [RecordLog.Action].
    apply Record_Deserialize_Done_inv in Hd as (Hm & Hle & Hsub & _ & _).
    pose proof (len_nonneg (list_byte_of_string (Record.Key rec))).
    pose proof (len_nonneg (Record.Value rec)).
    split; [by right|]. split; [lia|].
    unfold RecordLog_wire. cbn [RecordLog.Action RecordLog.Record].
    rewrite bool_decide_false by (by apply pending_action_payload).
    split.
    + pose proof (Record_wire_len rec) as Hwl. len_lia.
    + rewrite <- app_comm_cons. f_equal.
      replace (Z.to_nat (1 + m)) with (S (Z.to_nat m)) by lia. done.
Qed.

Lemma RecordLog_Deserialize_success_witness :
  let r := {| RecordLog.Action := LDelete;
              RecordLog.Record := {| Record.Key := "k"; Record.Value := [] |} |} in
  (RecordLog.Action r = LCommit ∨ pending_action (RecordLog.Action r))
  ∧ 1 ≤ 7 ≤ len [x02; x01; x00; x00; x00; x00; x6b; x05]
  ∧ 7 = len (RecordLog_wire r)
  ∧ [x02; x01; x00; x00; x00; x00; x6b; x05] =
      RecordLog_wire r ++ drop (Z.to_nat 7) [x02; x01; x00; x00; x00; x00; x6b; x05].
Proof.
  intros r.
  apply (RecordLog_Deserialize_success
           {| RecordLog.Action := x00; RecordLog.Record := Record.zero |}
           [x02; x01; x00; x00; x00; x00; x6b; x05] r 7).
  vm_compute. reflexivity.
Defined.

(** X10: whenever [RecordLog.Deserialize] returns an error, the count
    is 0 and the record of the receiver is as before the call; the buffer is
    empty (error [ErrBufferShort], receiver unchanged), or its first byte,
    now the action of the receiver, is a payload tag whose record did not
    fit ([ErrBufferShort]) or a tag that is not supported. *)
Theorem RecordLog_Deserialize_error r0 buf r n e :
  RecordLog.Deserialize r0 buf = Done (r, (n, Some e)) →
  n = 0 ∧ RecordLog.Record r = RecordLog.Record r0
  ∧ ((buf = [] ∧ e = ErrBufferShort ∧ r = r0)
     ∨ (∃ sub, buf = RecordLog.Action r :: sub ∧
          ((pending_action (RecordLog.Action r) ∧ e = ErrBufferShort)
           ∨ (RecordLog.Action r ≠ LCommit ∧ ¬ pending_action (RecordLog.Action r) ∧
              e = ErrUnsupportedAction (RecordLog.Action r))))).
Proof.
  intros H. destruct buf as [|a sub].
  { rewrite RecordLog_Deserialize_nil in H. injection H as <- <- <-.
    do 2 (split; [done|]). by left. }
  rewrite RecordLog_Deserialize_cons in H.
  destruct (decide (a = LCommit)) as [->|Hc]; [done|].
  destruct (decide (pending_action a)) as [Hp|Hp].
  - destruct (Record.Deserialize (RecordLog.Record r0) sub) as [[rec [m [e'|]]]|msg] eqn:Hd;
      try done.
    rewrite bind_Done in H. injection H as <- <- <-.
    apply Record_Deserialize_error_inv in Hd as (-> & _ & -> & _).
    cbn [RecordLog.Action RecordLog.Record]. do 2 (split; [done|]).
    right. exists sub. split; [done|]. by left.
  - injection H as <- <- <-. cbn [RecordLog.Action RecordLog.Record].
    do 2 (split; [done|]). right. exists sub. split; [done|]. by right.
Qed.

Lemma RecordLog_Deserialize_error_witness :
  let r0 := {| RecordLog.Action := x00; RecordLog.Record := Record.zero |} in
  let r := {| RecordLog.Action := LInsert; RecordLog.Record := Record.zero |} in
  RecordLog.Deserialize r0 [x01; x01; x00] = Done (r, (0, Some ErrBufferShort))
  ∧ 0 = 0 ∧ RecordLog.Record r = RecordLog.Record r0.
Proof.
  intros r0 r.
  assert (H : RecordLog.Deserialize r0 [x01; x01; x00] = Done (r, (0, Some ErrBufferShort)))
    by (vm_compute; reflexivity).
  split; [exact H|].
  destruct (RecordLog_Deserialize_error r0 [x01; x01; x00] r 0 ErrBufferShort H)
    as (Hn & Hrec & _).
  split; [exact Hn | exact Hrec].
Defined.

(** ** The operations on one key *)

Lemma demo_updated_reachable : reachable demo_updated.
Proof.
  apply (reachable_step (OpUpdate "key1" [x32]) demo_committed);
    [apply demo_committed_reachable | reflexivity].
Qed.

Lemma Txn_eta txn :
  {| Txn.wal := Txn.wal txn; Txn.db := Txn.db txn; Txn.writeSet := Txn.writeSet txn |} = txn.
Proof. by destruct txn. Qed.

(** [Read] on a well-formed state. *)
Lemma Read_wf txn key :
  wf txn →
  Txn.Read txn key =
  match Txn.writeSet txn !! key with
  | Some r =>
      if decide (RecordLog.Action r = LDelete) then ([], Some ErrNotExist)
      else (RecordLog.Value r, None)
  | None =>
      match Txn.db txn !! key with
      | Some r => (Record.Value r, None)
      | None => ([], Some ErrNotExist)
      end
  end.
Proof.
  intros Hwf. unfold Txn.Read.
  destruct (Txn.writeSet txn !! key) as [r|] eqn:Hr; [|by destruct (Txn.db txn !! key)].
  destruct (wf_action _ Hwf _ _ Hr) as [Ha|[Ha|Ha]]; rewrite Ha.
  - by rewrite decide_False, decide_True by (done || by left).
  - by rewrite decide_False, decide_True by (done || by right).
  - by rewrite decide_True.
Qed.

(** The three mutators on a well-formed state, with the key the entry is
    stored under written out. *)
Lemma Insert_wf_eq txn key value :
  wf txn →
  Txn.Insert txn key value =
  match Txn.writeSet txn !! key with
  | Some r =>
      if decide (RecordLog.Action r = LDelete) then
        (Txn.mk (Txn.wal txn) (Txn.db txn)
           (<[key := RecordLog.mk LUpdate (Record.mk key value)]> (Txn.writeSet txn)), None)
      else (txn, Some ErrExist)
  | None =>
      match Txn.db txn !! key with
      | Some _ => (txn, Some ErrExist)
      | None =>
          (Txn.mk (Txn.wal txn) (Txn.db txn)
             (<[key := RecordLog.mk LInsert (Record.mk key value)]> (Txn.writeSet txn)), None)
      end
  end.
Proof.
  intros Hwf. unfold Txn.Insert. rewrite clone_id.
  destruct (Txn.writeSet txn !! key) as [r|] eqn:Hr; [|done].
  rewrite (wf_ws_key _ Hwf _ _ Hr).
  destruct (decide (RecordLog.Action r = LDelete)).
  - by rewrite decide_False by (intros ?; done).
  - by rewrite decide_True.
Qed.

Lemma Update_wf_eq txn key value :
  wf txn →
  Txn.Update txn key value =
  match Txn.writeSet txn !! key with
  | Some r =>
      if decide (RecordLog.Action r = LDelete) then (txn, Some ErrNotExist)
      else
        (Txn.mk (Txn.wal txn) (Txn.db txn)
           (<[key := RecordLog.mk (RecordLog.Action r) (Record.mk key value)]>
              (Txn.writeSet txn)), None)
  | None =>
      match Txn.db txn !! key with
      | None => (txn, Some ErrNotExist)
      | Some _ =>
          (Txn.mk (Txn.wal txn) (Txn.db txn)
             (<[key := RecordLog.mk LUpdate (Record.mk key value)]> (Txn.writeSet txn)), None)
      end
  end.
Proof.
  intros Hwf. unfold Txn.Update. rewrite clone_id.
  destruct (Txn.writeSet txn !! key) as [r|] eqn:Hr.
  - by rewrite (wf_ws_key _ Hwf _ _ Hr).
  - destruct (Txn.db txn !! key) as [r|] eqn:Hdb; [|done].
    by rewrite (wf_db_key _ Hwf _ _ Hdb).
Qed.

Lemma Delete_wf_eq txn key :
  wf txn →
  Txn.Delete txn key =
  match Txn.writeSet txn !! key with
  | Some r =>
      if decide (RecordLog.Action r = LDelete) then (txn, Some ErrNotExist)
      else if decide (RecordLog.Action r = LInsert) then
        (Txn.mk (Txn.wal txn) (Txn.db txn) (delete key (Txn.writeSet txn)), None)
      else
        (Txn.mk (Txn.wal txn) (Txn.db txn)
           (<[key := RecordLog.mk LDelete (Record.mk key [])]> (Txn.writeSet txn)), None)
  | None =>
      match Txn.db txn !! key with
      | None => (txn, Some ErrNotExist)
      | Some _ =>
          (Txn.mk (Txn.wal txn) (Txn.db txn)
             (<[key := RecordLog.mk LDelete (Record.mk key [])]> (Txn.writeSet txn)), None)
      end
  end.
Proof.
  intros Hwf. unfold Txn.Delete.
  destruct (Txn.writeSet txn !! key) as [r|] eqn:Hr.
  - by rewrite (wf_ws_key _ Hwf _ _ Hr).
  - destruct (Txn.db txn !! key) as [r|] eqn:Hdb; [|done].
    by rewrite (wf_db_key _ Hwf _ _ Hdb).
Qed.

(** X11: in every engine state and for every key, either [Read] finds
    the key, and then [Insert] returns [ErrExist] and changes nothing while
    [Update] and [Delete] succeed; or [Read] returns [ErrNotExist], and then
    [Insert] succeeds while [Update] and [Delete] return [ErrNotExist] and
    change nothing. *)
Theorem Read_decides_outcome txn key value :
  reachable txn →
  ((Txn.Read txn key).2 = None ∧
   Txn.Insert txn key value = (txn, Some ErrExist) ∧
   (Txn.Update txn key value).2 = None ∧
   (Txn.Delete txn key).2 = None)
  ∨ (Txn.Read txn key = ([], Some ErrNotExist) ∧
     (Txn.Insert txn key value).2 = None ∧
     Txn.Update txn key value = (txn, Some ErrNotExist) ∧
     Txn.Delete txn key = (txn, Some ErrNotExist)).
Proof.
  intros Hwf%reachable_wf.
  rewrite Read_wf, Insert_wf_eq, Update_wf_eq, Delete_wf_eq by done.
  destruct (Txn.writeSet txn !! key) as [r|] eqn:Hr.
  - destruct (decide (RecordLog.Action r = LDelete)); [by right|].
    left. by destruct (decide (RecordLog.Action r = LInsert)).
  - destruct (Txn.db txn !! key); [by left | by right].
Qed.

Lemma Read_decides_outcome_witness :
  ((Txn.Read demo_pending "key1").2 = None ∧
   Txn.Insert demo_pending "key1" [x32] = (demo_pending, Some ErrExist) ∧
   (Txn.Update demo_pending "key1" [x32]).2 = None ∧
   (Txn.Delete demo_pending "key1").2 = None)
  ∨ (Txn.Read demo_pending "key1" = ([], Some ErrNotExist) ∧
     (Txn.Insert demo_pending "key1" [x32]).2 = None ∧
     Txn.Update demo_pending "key1" [x32] = (demo_pending, Some ErrNotExist) ∧
     Txn.Delete demo_pending "key1" = (demo_pending, Some ErrNotExist)).
Proof.
  exact (Read_decides_outcome demo_pending "key1" [x32] demo_pending_reachable).
Defined.

(** X12: in every engine state, after an [Insert] or [Update] of a key
    that succeeded [Read] of the key returns the value passed, and after a
    [Delete] that succeeded [Read] of the key returns [ErrNotExist]. *)
Theorem Read_after_write txn key value :
  reachable txn →
  ((Txn.Insert txn key value).2 = None →
   Txn.Read (Txn.Insert txn key value).1 key = (value, None))
  ∧ ((Txn.Update txn key value).2 = None →
     Txn.Read (Txn.Update txn key value).1 key = (value, None))
  ∧ ((Txn.Delete txn key).2 = None →
     Txn.Read (Txn.Delete txn key).1 key = ([], Some ErrNotExist)).
Proof.
  intros Hwf%reachable_wf.
  pose proof (Insert_wf txn key value Hwf) as Hi.
  pose proof (Update_wf txn key value Hwf) as Hu.
  pose proof (Delete_wf txn key Hwf) as Hd.
  rewrite !Read_wf by done. clear Hi Hu Hd.
  rewrite Insert_wf_eq, Update_wf_eq, Delete_wf_eq by done.
  pose proof (wf_action _ Hwf key) as Hact. pose proof (wf_insert _ Hwf key) as Hins.
  destruct (Txn.writeSet txn !! key) as [r|] eqn:Hr.
  - specialize (Hact r eq_refl). specialize (Hins r eq_refl).
    destruct (decide (RecordLog.Action r = LDelete)) as [Ha|Ha].
    + split; [|by split]. intros _. cbn [fst Txn.writeSet].
      by rewrite lookup_insert_eq.
    + split; [done|]. split.
      * intros _. cbn [fst Txn.writeSet]. rewrite lookup_insert_eq.
        cbn [RecordLog.Action]. by rewrite decide_False.
      * intros _. destruct (decide (RecordLog.Action r = LInsert)) as [Hi|Hi];
          cbn [fst Txn.writeSet Txn.db].
        -- by rewrite lookup_delete_eq, Hins.
        -- by rewrite lookup_insert_eq.
  - destruct (Txn.db txn !! key) as [r|] eqn:Hdb.
    + split; [done|]. split; intros _; cbn [fst Txn.writeSet]; by rewrite lookup_insert_eq.
    + split; [|by split]. intros _. cbn [fst Txn.writeSet]. by rewrite lookup_insert_eq.
Qed.

Lemma Read_after_write_witness :
  Txn.Read (Txn.Insert demo_committed "key2" [x32]).1 "key2" = ([x32], None)
  ∧ Txn.Read (Txn.Update demo_committed "key1" [x32]).1 "key1" = ([x32], None)
  ∧ Txn.Read (Txn.Delete demo_committed "key1").1 "key1" = ([], Some ErrNotExist).
Proof.
  split; [|split].
  - apply (proj1 (Read_after_write demo_committed "key2" [x32] demo_committed_reachable)).
    reflexivity.
  - apply (proj1 (proj2 (Read_after_write demo_committed "key1" [x32]
                           demo_committed_reachable))).
    reflexivity.
  - apply (proj2 (proj2 (Read_after_write demo_committed "key1" []
                           demo_committed_reachable))).
    reflexivity.
Defined.

(** X13: in every engine state, [Insert], [Update] and [Delete] of a
    key leave what [Read] returns for every other key as it was. *)
Theorem Read_other_key txn key key' value :
  reachable txn → key' ≠ key →
  Txn.Read (Txn.Insert txn key value).1 key' = Txn.Read txn key'
  ∧ Txn.Read (Txn.Update txn key value).1 key' = Txn.Read txn key'
  ∧ Txn.Read (Txn.Delete txn key).1 key' = Txn.Read txn key'.
Proof.
  intros Hwf%reachable_wf Hne.
  rewrite Insert_wf_eq, Update_wf_eq, Delete_wf_eq by done.
  unfold Txn.Read.
  destruct (Txn.writeSet txn !! key) as [r|] eqn:Hr.
  - repeat case_decide; cbn [fst Txn.writeSet Txn.db];
      rewrite ?lookup_insert_ne, ?lookup_delete_ne by done; done.
  - destruct (Txn.db txn !! key); cbn [fst Txn.writeSet Txn.db];
      rewrite ?lookup_insert_ne by done; done.
Qed.

Lemma Read_other_key_witness :
  Txn.Read (Txn.Insert demo_committed "key2" [x32]).1 "key1" = Txn.Read demo_committed "key1"
  ∧ Txn.Read (Txn.Update demo_committed "key2" [x32]).1 "key1" = Txn.Read demo_committed "key1"
  ∧ Txn.Read (Txn.Delete demo_committed "key2").1 "key1" = Txn.Read demo_committed "key1".
Proof.
  apply (Read_other_key demo_committed "key2" "key1" [x32] demo_committed_reachable).
  discriminate.
Defined.

(** X14: in every engine state, [Update] of a key with a pending
    Insert or Update succeeds, keeps the pending action and replaces the
    pending value; [Update] of a key with a pending Delete returns
    [ErrNotExist] and changes nothing. *)
Theorem Update_over_pending txn key value r :
  reachable txn →
  Txn.writeSet txn !! key = Some r →
  (RecordLog.Action r ≠ LDelete →
   Txn.Update txn key value =
     ({| Txn.wal := Txn.wal txn; Txn.db := Txn.db txn;
         Txn.writeSet :=
           <[key := {| RecordLog.Action := RecordLog.Action r;
                       RecordLog.Record := {| Record.Key := key; Record.Value := value |} |}]>
             (Txn.writeSet txn) |}, None))
  ∧ (RecordLog.Action r = LDelete → Txn.Update txn key value = (txn, Some ErrNotExist)).
Proof.
  intros Hwf%reachable_wf Hr. rewrite Update_wf_eq, Hr by done.
  split; intros Ha; [by rewrite decide_False | by rewrite decide_True].
Qed.

Lemma Update_over_pending_witness :
  Txn.Update demo_one_pending "key2" [x33] =
    ({| Txn.wal := Txn.wal demo_one_pending; Txn.db := Txn.db demo_one_pending;
        Txn.writeSet :=
          <["key2"%string :=
              {| RecordLog.Action := LInsert;
                 RecordLog.Record := {| Record.Key := "key2"; Record.Value := [x33] |} |}]>
            (Txn.writeSet demo_one_pending) |}, None)
  ∧ Txn.Update demo_deleted "key1" [x33] = (demo_deleted, Some ErrNotExist).
Proof.
  split.
  - apply (proj1 (Update_over_pending demo_one_pending "key2" [x33]
                    {| RecordLog.Action := LInsert;
                       RecordLog.Record := {| Record.Key := "key2"; Record.Value := [x32] |} |}
                    demo_one_pending_reachable ltac:(vm_compute; reflexivity))).
    discriminate.
  - apply (proj2 (Update_over_pending demo_deleted "key1" [x33]
                    {| RecordLog.Action := LDelete;
                       RecordLog.Record := {| Record.Key := "key1"; Record.Value := [] |} |}
                    demo_deleted_reachable ltac:(vm_compute; reflexivity))).
    reflexivity.
Defined.

(** X15: in every engine state, [Delete] of a key with a pending
    Update succeeds and turns the entry into a pending Delete with an empty
    value; [Delete] of a key with a pending Delete returns [ErrNotExist] and
    changes nothing. *)
Theorem Delete_over_pending txn key r :
  reachable txn →
  Txn.writeSet txn !! key = Some r →
  (RecordLog.Action r = LUpdate →
   Txn.Delete txn key =
     ({| Txn.wal := Txn.wal txn; Txn.db := Txn.db txn;
         Txn.writeSet :=
           <[key := {| RecordLog.Action := LDelete;
                       RecordLog.Record := {| Record.Key := key; Record.Value := [] |} |}]>
             (Txn.writeSet txn) |}, None))
  ∧ (RecordLog.Action r = LDelete → Txn.Delete txn key = (txn, Some ErrNotExist)).
Proof.
  intros Hwf%reachable_wf Hr. rewrite Delete_wf_eq, Hr by done.
  split; intros Ha; rewrite Ha; [|by rewrite decide_True].
  by rewrite !decide_False.
Qed.

Lemma Delete_over_pending_witness :
  Txn.Delete demo_updated "key1" =
    ({| Txn.wal := Txn.wal demo_updated; Txn.db := Txn.db demo_updated;
        Txn.writeSet :=
          <["key1"%string :=
              {| RecordLog.Action := LDelete;
                 RecordLog.Record := {| Record.Key := "key1"; Record.Value := [] |} |}]>
            (Txn.writeSet demo_updated) |}, None)
  ∧ Txn.Delete demo_deleted "key1" = (demo_deleted, Some ErrNotExist).
Proof.
  split.
  - apply (proj1 (Delete_over_pending demo_updated "key1"
                    {| RecordLog.Action := LUpdate;
                       RecordLog.Record := {| Record.Key := "key1"; Record.Value := [x32] |} |}
                    demo_updated_reachable ltac:(vm_compute; reflexivity))).
    reflexivity.
  - apply (proj2 (Delete_over_pending demo_deleted "key1"
                    {| RecordLog.Action := LDelete;
                       RecordLog.Record := {| Record.Key := "key1"; Record.Value := [] |} |}
                    demo_deleted_reachable ltac:(vm_compute; reflexivity))).
    reflexivity.
Defined.

(** X16: in every engine state and for a key with no pending entry:
    when the db has no record for the key, [Insert] records a pending Insert
    with the value while [Update] and [Delete] return [ErrNotExist] and
    change nothing; when the db has one, [Insert] returns [ErrExist] and
    changes nothing while [Update] records a pending Update with the value
    and [Delete] a pending Delete with an empty value. *)
Theorem first_call_on_key txn key value :
  reachable txn →
  Txn.writeSet txn !! key = None →
  let pending a v :=
    {| Txn.wal := Txn.wal txn; Txn.db := Txn.db txn;
       Txn.writeSet :=
         <[key := {| RecordLog.Action := a;
                     RecordLog.Record := {| Record.Key := key; Record.Value := v |} |}]>
           (Txn.writeSet txn) |} in
  (Txn.db txn !! key = None →
   Txn.Insert txn key value = (pending LInsert value, None)
   ∧ Txn.Update txn key value = (txn, Some ErrNotExist)
   ∧ Txn.Delete txn key = (txn, Some ErrNotExist))
  ∧ (is_Some (Txn.db txn !! key) →
     Txn.Insert txn key value = (txn, Some ErrExist)
     ∧ Txn.Update txn key value = (pending LUpdate value, None)
     ∧ Txn.Delete txn key = (pending LDelete [], None)).
Proof.
  intros Hwf%reachable_wf Hr pending.
  rewrite Insert_wf_eq, Update_wf_eq, Delete_wf_eq, Hr by done.
  split.
  - by intros ->.
  - by intros [r ->].
Qed.

Lemma first_call_on_key_witness :
  Txn.Update demo_committed "key2" [x32] = (demo_committed, Some ErrNotExist)
  ∧ Txn.Insert demo_committed "key1" [x32] = (demo_committed, Some ErrExist).
Proof.
  split.
  - apply (proj1 (first_call_on_key demo_committed "key2" [x32] demo_committed_reachable
                    ltac:(reflexivity))).
    reflexivity.
  - apply (proj2 (first_call_on_key demo_committed "key1" [x32] demo_committed_reachable
                    ltac:(reflexivity))).
    vm_compute. eexists. reflexivity.
Defined.

(** X17: for a key with neither a pending entry nor a record in the
    db, [Insert] succeeds and a [Delete] of the key right after it succeeds
    and gives back the state before the [Insert]. *)
Theorem Insert_then_Delete txn key value :
  Txn.writeSet txn !! key = None → Txn.db txn !! key = None →
  (Txn.Insert txn key value).2 = None
  ∧ Txn.Delete (Txn.Insert txn key value).1 key = (txn, None).
Proof.
  intros Hr Hdb. unfold Txn.Insert. rewrite Hr, Hdb. split; [done|].
  unfold Txn.Delete. cbn [fst Txn.writeSet Txn.db Txn.wal].
  rewrite lookup_insert_eq. cbn [RecordLog.Action].
  rewrite decide_False, decide_True by done.
  rewrite delete_insert_eq, delete_id by done. by rewrite Txn_eta.
Qed.

Lemma Insert_then_Delete_witness :
  (Txn.Insert demo_committed "key2" [x32]).2 = None
  ∧ Txn.Delete (Txn.Insert demo_committed "key2" [x32]).1 "key2" = (demo_committed, None).
Proof.
  apply (Insert_then_Delete demo_committed "key2" [x32]); reflexivity.
Defined.

(** X18: in every engine state and for a key of the db with no
    pending entry, [Delete] succeeds and an [Insert] of the key right after
    it returns what [Update] of the key with the same value returns on the
    state before the [Delete]: the same state and no error. *)
Theorem Delete_then_Insert txn key value :
  reachable txn →
  Txn.writeSet txn !! key = None → is_Some (Txn.db txn !! key) →
  (Txn.Delete txn key).2 = None
  ∧ Txn.Insert (Txn.Delete txn key).1 key value = Txn.Update txn key value.
Proof.
  intros Hwf%reachable_wf Hr [r Hdb].
  pose proof (Delete_wf txn key Hwf) as Hd.
  rewrite Insert_wf_eq by done. clear Hd.
  rewrite Delete_wf_eq, Update_wf_eq, Hr, Hdb by done. split; [done|].
  cbn [fst Txn.writeSet Txn.db Txn.wal]. rewrite lookup_insert_eq.
  cbn [RecordLog.Action]. rewrite decide_True by done.
  by rewrite insert_insert_eq.
Qed.

Lemma Delete_then_Insert_witness :
  (Txn.Delete demo_committed "key1").2 = None
  ∧ Txn.Insert (Txn.Delete demo_committed "key1").1 "key1" [x32] =
      Txn.Update demo_committed "key1" [x32].
Proof.
  apply (Delete_then_Insert demo_committed "key1" [x32] demo_committed_reachable).
  - reflexivity.
  - vm_compute. eexists. reflexivity.
Defined.

(** X19: in every engine state, an [Update] of a key right after an
    [Update] of the same key that succeeded returns what the second
    [Update] alone returns. *)
Theorem Update_then_Update txn key v1 v2 :
  reachable txn →
  (Txn.Update txn key v1).2 = None →
  Txn.Update (Txn.Update txn key v1).1 key v2 = Txn.Update txn key v2.
Proof.
  intros Hwf%reachable_wf.
  pose proof (Update_wf txn key v1 Hwf) as Hu.
  rewrite (Update_wf_eq (Txn.Update txn key v1).1) by done. clear Hu.
  rewrite !Update_wf_eq by done.
  destruct (Txn.writeSet txn !! key) as [r|] eqn:Hr.
  - destruct (decide (RecordLog.Action r = LDelete)) as [Ha|Ha]; [done|]. intros _.
    cbn [fst Txn.writeSet Txn.db Txn.wal]. rewrite lookup_insert_eq.
    cbn [RecordLog.Action]. rewrite decide_False by done.
    by rewrite insert_insert_eq.
  - destruct (Txn.db txn !! key) as [r|] eqn:Hdb; [|done]. intros _.
    cbn [fst Txn.writeSet Txn.db Txn.wal]. rewrite lookup_insert_eq.
    cbn [RecordLog.Action]. rewrite decide_False by done.
    by rewrite insert_insert_eq.
Qed.

Lemma Update_then_Update_witness :
  Txn.Update (Txn.Update demo_committed "key1" [x32]).1 "key1" [x33] =
    Txn.Update demo_committed "key1" [x33].
Proof.
  apply (Update_then_Update demo_committed "key1" [x32] [x33] demo_committed_reachable).
  reflexivity.
Defined.

(** ** The transaction as a whole *)

(** The two ways [Commit] ends on a well-formed state. *)
Lemma Commit_wf_cases seed1 seed2 txn r :
  wf txn → Txn.Commit seed1 seed2 txn = Done r →
  (r.2 ≠ None ∧ Txn.db r.1 = Txn.db txn ∧ Txn.writeSet r.1 = Txn.writeSet txn)
  ∨ (r.2 = None ∧ Txn.writeSet r.1 = ∅ ∧
     ∀ k, Txn.db r.1 !! k = applied (Txn.writeSet txn !! k) (Txn.db txn !! k)).
Proof.
  intros Hwf Hc.
  destruct (decide (Txn.writeSet txn = ∅)) as [He|Hne].
  - rewrite Commit_empty in Hc by done. injection Hc as <-. right.
    split; [done|]. split; [done|]. intros k. by rewrite He, lookup_empty.
  - destruct (Commit_nonempty seed1 seed2 txn Hne) as (wal1 & err1 & Hc' & _).
    rewrite Hc' in Hc. injection Hc as <-. unfold commit_tail.
    destruct err1 as [e|]; [by left|].
    destruct (File.Write wal1 [LCommit]) as [wal2 [n2 [e|]]]; [by left|].
    destruct (File.Sync wal2) as [wal3 [e|]]; [by left|].
    destruct (apply_loop_wf seed2 txn Hwf) as (db' & -> & Hdb). by right.
Qed.

(** X20: in every engine state, a call of the interface leaves the
    db as it was unless it is a [Commit] that returns success. *)
Theorem db_changes_by_Commit_only o txn txn' :
  reachable txn → step o txn = Done txn' →
  Txn.db txn' = Txn.db txn
  ∨ ∃ seed1 seed2, o = OpCommit seed1 seed2 ∧ Txn.Commit seed1 seed2 txn = Done (txn', None).
Proof.
  intros Hwf%reachable_wf Hs. destruct o; cbn [step] in Hs.
  - injection Hs as <-. by left.
  - injection Hs as <-. left. rewrite Insert_wf_eq by done.
    destruct (Txn.writeSet txn !! key); [by case_decide | by destruct (Txn.db txn !! key)].
  - injection Hs as <-. left. rewrite Update_wf_eq by done.
    destruct (Txn.writeSet txn !! key); [by case_decide | by destruct (Txn.db txn !! key)].
  - injection Hs as <-. left. rewrite Delete_wf_eq by done.
    destruct (Txn.writeSet txn !! key); [by repeat case_decide | by destruct (Txn.db txn !! key)].
  - destruct (Txn.Commit seed1 seed2 txn) as [[t e]|msg] eqn:Hc; [|done].
    rewrite bind_Done in Hs. injection Hs as <-. cbn [fst].
    destruct (Commit_wf_cases _ _ _ _ Hwf Hc) as [(_ & Hdb & _)|(He & _)]; [by left|].
    cbn [snd] in He. subst e. right. by exists seed1, seed2.
  - injection Hs as <-. by left.
Qed.

Lemma db_changes_by_Commit_only_witness :
  Txn.db demo_committed = Txn.db demo_pending
  ∨ ∃ seed1 seed2,
      OpCommit [] [] = OpCommit seed1 seed2 ∧
      Txn.Commit seed1 seed2 demo_pending = Done (demo_committed, None).
Proof.
  apply (db_changes_by_Commit_only (OpCommit [] []) demo_pending demo_committed
           demo_pending_reachable).
  vm_compute. reflexivity.
Defined.

(** X21: in every engine state, after a [Commit] that returns success
    [Read] returns for every key what it returned before the [Commit]. *)
Theorem Commit_keeps_reads seed1 seed2 txn txn' key :
  reachable txn → Txn.Commit seed1 seed2 txn = Done (txn', None) →
  Txn.Read txn' key = Txn.Read txn key.
Proof.
  intros Hwf%reachable_wf Hc.
  pose proof (Commit_wf _ _ _ _ Hwf Hc) as Hwf'. cbn [fst] in Hwf'.
  destruct (Commit_wf_cases _ _ _ _ Hwf Hc) as [(He & _)|(_ & Hws & Hdb)]; [done|].
  cbn [fst] in Hws, Hdb.
  rewrite !Read_wf by done. rewrite Hws, lookup_empty, Hdb. unfold applied.
  destruct (Txn.writeSet txn !! key) as [r|]; [|done].
  by destruct (decide (RecordLog.Action r = LDelete)).
Qed.

Lemma Commit_keeps_reads_witness :
  Txn.Read demo_committed "key1" = Txn.Read demo_pending "key1".
Proof.
  apply (Commit_keeps_reads [] [] demo_pending demo_committed "key1" demo_pending_reachable).
  vm_compute. reflexivity.
Defined.

(** X22: [Abort] empties the write-set and leaves the log file and the
    db as they were; afterwards [Read] returns the value of the db for the
    key, or [ErrNotExist] when there is none, and [Commit] succeeds without
    changing anything. *)
Theorem Abort_discards txn :
  Txn.Abort txn = {| Txn.wal := Txn.wal txn; Txn.db := Txn.db txn; Txn.writeSet := ∅ |}
  ∧ (∀ key, Txn.Read (Txn.Abort txn) key =
            match Txn.db txn !! key with
            | Some r => (Record.Value r, None)
            | None => ([], Some ErrNotExist)
            end)
  ∧ (∀ seed1 seed2, Txn.Commit seed1 seed2 (Txn.Abort txn) = Done (Txn.Abort txn, None)).
Proof.
  assert (H : Txn.Abort txn =
              {| Txn.wal := Txn.wal txn; Txn.db := Txn.db txn; Txn.writeSet := ∅ |}).
  { unfold Txn.Abort. f_equal. exact (Abort_writeSet txn). }
  split; [done|]. split.
  - intros key. rewrite H. unfold Txn.Read. cbn [Txn.writeSet Txn.db].
    by rewrite lookup_empty.
  - intros seed1 seed2. apply Commit_empty. apply Abort_writeSet.
Qed.

(** X23: [Commit] never panics, whatever the state, the order of the
    two loops and the outcomes of the system calls: the serialization of the
    commit marker cannot fail and every slice taken of the buffer is within
    its bounds. *)
Theorem Commit_never_panics seed1 seed2 txn :
  ∃ txn' err, Txn.Commit seed1 seed2 txn = Done (txn', err).
Proof.
  destruct (Commit_Done seed1 seed2 txn) as [[txn' err] ->]. by exists txn', err.
Qed.

(** X24: in every engine state a pending Delete has an empty value. *)
Theorem pending_Delete_empty txn key r :
  reachable txn →
  Txn.writeSet txn !! key = Some r → RecordLog.Action r = LDelete →
  RecordLog.Value r = [].
Proof.
  intros Hreach. revert key r.
  induction Hreach as [wal|o txn txn' Hreach IH Hs]; intros key r.
  { cbn. by rewrite lookup_empty. }
  pose proof (reachable_wf _ Hreach) as Hwf.
  destruct o; cbn [step] in Hs.
  - injection Hs as <-. apply IH.
  - injection Hs as <-. rewrite Insert_wf_eq by done.
    destruct (Txn.writeSet txn !! key0) as [r0|] eqn:Hr0.
    + case_decide; [|apply IH]. cbn [fst Txn.writeSet]. rewrite lookup_insert.
      case_decide; [by intros [= <-] | apply IH].
    + destruct (Txn.db txn !! key0); [apply IH|]. cbn [fst Txn.writeSet].
      rewrite lookup_insert. case_decide; [by intros [= <-] | apply IH].
  - injection Hs as <-. rewrite Update_wf_eq by done.
    destruct (Txn.writeSet txn !! key0) as [r0|] eqn:Hr0.
    + case_decide; [apply IH|]. cbn [fst Txn.writeSet]. rewrite lookup_insert.
      case_decide; [by intros [= <-] | apply IH].
    + destruct (Txn.db txn !! key0); [|apply IH]. cbn [fst Txn.writeSet].
      rewrite lookup_insert. case_decide; [by intros [= <-] | apply IH].
  - injection Hs as <-. rewrite Delete_wf_eq by done.
    destruct (Txn.writeSet txn !! key0) as [r0|] eqn:Hr0.
    + case_decide; [apply IH|]. case_decide; cbn [fst Txn.writeSet].
      * rewrite lookup_delete. case_decide; [done | apply IH].
      * rewrite lookup_insert. case_decide; [by intros [= <-] | apply IH].
    + destruct (Txn.db txn !! key0); [|apply IH]. cbn [fst Txn.writeSet].
      rewrite lookup_insert. case_decide; [by intros [= <-] | apply IH].
  - destruct (Txn.Commit seed1 seed2 txn) as [[t e]|msg] eqn:Hc; [|done].
    rewrite bind_Done in Hs. injection Hs as <-. cbn [fst].
    destruct (Commit_wf_cases _ _ _ _ Hwf Hc) as [(_ & _ & Hws)|(_ & Hws & _)];
      cbn [fst] in Hws; rewrite Hws; [apply IH | by rewrite lookup_empty].
  - injection Hs as <-. by rewrite Abort_writeSet, lookup_empty.
Qed.

Lemma pending_Delete_empty_witness :
  RecordLog.Value
    {| RecordLog.Action := LDelete;
       RecordLog.Record := {| Record.Key := "key1"; Record.Value := [] |} |} = [].
Proof.
  apply (pending_Delete_empty demo_deleted "key1" _ demo_deleted_reachable).
  - vm_compute. reflexivity.
  - reflexivity.
Defined.

(** ** What reaches the log *)

(** The bytes the first loop of [Commit] has written when it ends: the
    serializations of the entries before the [j]-th, whole, and then, when a
    write failed, part of the [j]-th. *)
Lemma write_loop_log entries wal buf wal' buf' err :
  len buf = 4096 →
  Txn.write_loop entries wal buf = Done (wal', buf', err) →
  ∃ j part,
    File.data wal' =
      File.data wal ++ concat (map (λ kr, RecordLog_wire kr.2) (take j entries)) ++ part
    ∧ match err with
      | None => j = length entries ∧ part = []
      | Some e =>
          ∃ kr, entries !! j = Some kr ∧
            if decide (e = ErrBufferShort) then part = [] ∧ ¬ fits kr.2
            else ∃ n, part = take n (RecordLog_wire kr.2)
      end.
Proof.
  revert wal buf. induction entries as [|[k r] rest IH]; intros wal buf Hbuf Hloop.
  - cbn [Txn.write_loop] in Hloop. injection Hloop as <- <- <-.
    exists 0%nat, []. cbn. by rewrite app_nil_r.
  - destruct (decide (len (RecordLog_wire r) ≤ 4096)) as [Hfit|Hfit].
    2:{ rewrite write_loop_cons_short in Hloop by done. injection Hloop as <- <- <-.
        exists 0%nat, []. cbn [take map concat app]. rewrite app_nil_r. split; [done|].
        exists (k, r). split; [done|]. by rewrite decide_True. }
    rewrite write_loop_cons_fits in Hloop by done. cbn zeta in Hloop.
    set (buf1 := RecordLog_wire r ++ drop (length (RecordLog_wire r)) buf) in *.
    assert (Hbuf1 : len buf1 = 4096) by (unfold buf1, fits in *; len_lia).
    destruct (failure_at wal 0) as [e|] eqn:Hf.
    + destruct (File_Write_fail wal (RecordLog_wire r) e Hf) as [n Hw].
      rewrite Hw in Hloop. injection Hloop as <- <- <-.
      exists 0%nat, (take n (RecordLog_wire r)). cbn [take map concat app File.data].
      split; [done|]. exists (k, r). split; [done|].
      rewrite decide_False; [by exists n|].
      unfold failure_at in Hf.
      destruct (File.script wal !! 0%nat) as [[|??]|]; try done. by injection Hf as <-.
    + rewrite File_Write_ok in Hloop by done.
      destruct (IH _ _ Hbuf1 Hloop) as (j & part & Hdata & Herr).
      exists (S j), part. cbn [File.data] in Hdata. split.
      * rewrite Hdata. cbn [take map concat snd]. by rewrite <- !app_assoc.
      * destruct err as [e|]; [done|]. destruct Herr as [-> ->]. done.
Qed.

(** X25: every call of the interface leaves the bytes of the log file
    in place and at most appends to them, and every call other than [Commit]
    appends nothing. *)
Theorem log_append_only o txn txn' :
  step o txn = Done txn' →
  ∃ suffix,
    File.data (Txn.wal txn') = File.data (Txn.wal txn) ++ suffix
    ∧ ((∀ seed1 seed2, o ≠ OpCommit seed1 seed2) → suffix = []).
Proof.
  intros Hs. destruct o; cbn [step] in Hs.
  - injection Hs as <-. exists []. by rewrite app_nil_r.
  - injection Hs as <-. exists []. rewrite app_nil_r. split; [|done].
    unfold Txn.Insert. destruct (Txn.writeSet txn !! key);
      [by case_decide | by destruct (Txn.db txn !! key)].
  - injection Hs as <-. exists []. rewrite app_nil_r. split; [|done].
    unfold Txn.Update. destruct (Txn.writeSet txn !! key);
      [by case_decide | by destruct (Txn.db txn !! key)].
  - injection Hs as <-. exists []. rewrite app_nil_r. split; [|done].
    unfold Txn.Delete. destruct (Txn.writeSet txn !! key);
      [by repeat case_decide | by destruct (Txn.db txn !! key)].
  - destruct (Txn.Commit seed1 seed2 txn) as [[t e]|msg] eqn:Hc; [|done].
    rewrite bind_Done in Hs. injection Hs as <-. cbn [fst].
    assert (∃ suffix, File.data (Txn.wal t) = File.data (Txn.wal txn) ++ suffix)
      as [suffix Hsuffix].
    { destruct (decide (Txn.writeSet txn = ∅)) as [He|Hne].
      { rewrite Commit_empty in Hc by done. injection Hc as <- <-.
        exists []. by rewrite app_nil_r. }
      destruct (write_loop_spec (range seed1 (Txn.writeSet txn)) (Txn.wal txn)
                  (replicate 4096 x00)) as (wal1 & buf1 & err1 & Hloop & Hbuf & _).
      { unfold len. by rewrite length_replicate. }
      rewrite (Commit_unfold _ _ _ _ _ _ Hne Hloop Hbuf) in Hc.
      apply write_loop_log in Hloop as (j & part & Hdata & _);
        [|unfold len; by rewrite length_replicate].
      injection Hc as Hc. unfold commit_tail in Hc.
      destruct err1 as [e1|].
      { injection Hc as <- <-. by eexists. }
      unfold File.Write, File.Sync in Hc.
      destruct (File.script wal1) as [|[|n c] tl]; cbn in Hc.
      - destruct (Txn.apply_loop _ _ _) as [[db' ws'] err].
        injection Hc as <- _. cbn [Txn.wal File.data]. rewrite Hdata.
        rewrite <- !app_assoc. by eexists.
      - destruct tl as [|[|n' c'] tl]; cbn in Hc.
        + destruct (Txn.apply_loop _ _ _) as [[db' ws'] err].
          injection Hc as <- _. cbn [Txn.wal File.data]. rewrite Hdata.
          rewrite <- !app_assoc. by eexists.
        + destruct (Txn.apply_loop _ _ _) as [[db' ws'] err].
          injection Hc as <- _. cbn [Txn.wal File.data]. rewrite Hdata.
          rewrite <- !app_assoc. by eexists.
        + injection Hc as <- _. cbn [Txn.wal File.data]. rewrite Hdata.
          rewrite <- !app_assoc. by eexists.
      - injection Hc as <- _. cbn [Txn.wal File.data]. rewrite Hdata.
        rewrite <- !app_assoc. by eexists. }
    exists suffix. split; [done|]. intros Hn. by destruct (Hn seed1 seed2).
  - injection Hs as <-. exists []. by rewrite app_nil_r.
Qed.

Lemma log_append_only_witness :
  ∃ suffix,
    File.data (Txn.wal demo_committed) = File.data (Txn.wal demo_pending) ++ suffix
    ∧ ((∀ seed1 seed2, OpCommit [] [] ≠ OpCommit seed1 seed2) → suffix = []).
Proof.
  apply (log_append_only (OpCommit [] []) demo_pending demo_committed).
  vm_compute. reflexivity.
Defined.

Lemma apply_loop_error entries db ws db' ws' e :
  Txn.apply_loop entries db ws = (db', ws', Some e) →
  ∃ a, e = ErrUnexpectedAction a.
Proof.
  revert db ws. induction entries as [|[k rl] rest IH]; intros db ws; [done|].
  cbn [Txn.apply_loop]. repeat case_decide; try apply IH.
  intros [= _ _ <-]. by eexists.
Qed.

(** X26: when [Commit] returns [ErrBufferShort], the log file has grown
    by the serializations of the entries the first loop met before one that
    does not fit the buffer, each of them whole, and by nothing else: no
    marker follows them. *)
Theorem Commit_buffer_short_log seed1 seed2 txn txn' :
  Txn.Commit seed1 seed2 txn = Done (txn', Some ErrBufferShort) →
  ∃ entries j kr,
    entries ≡ₚ map_to_list (Txn.writeSet txn)
    ∧ entries !! j = Some kr ∧ ¬ fits kr.2
    ∧ File.data (Txn.wal txn') =
        File.data (Txn.wal txn) ++ concat (map (λ kr, RecordLog_wire kr.2) (take j entries)).
Proof.
  intros Hc.
  destruct (decide (Txn.writeSet txn = ∅)) as [He|Hne].
  { by rewrite Commit_empty in Hc. }
  destruct (write_loop_spec (range seed1 (Txn.writeSet txn)) (Txn.wal txn)
              (replicate 4096 x00)) as (wal1 & buf1 & err1 & Hloop & Hbuf & _).
  { unfold len. by rewrite length_replicate. }
  rewrite (Commit_unfold _ _ _ _ _ _ Hne Hloop Hbuf) in Hc.
  apply write_loop_log in Hloop as (j & part & Hdata & Herr);
    [|unfold len; by rewrite length_replicate].
  injection Hc as Hc. unfold commit_tail in Hc.
  destruct err1 as [e1|].
  - injection Hc as <- ->. destruct Herr as (kr & Hkr & Hcase).
    rewrite decide_True in Hcase by done. destruct Hcase as [-> Hfit].
    exists (range seed1 (Txn.writeSet txn)), j, kr.
    split; [apply range_perm|]. split; [done|]. split; [done|].
    cbn [Txn.wal]. by rewrite Hdata, app_nil_r.
  - exfalso. unfold File.Write, File.Sync in Hc.
    destruct (Txn.apply_loop _ _ _) as [[db' ws'] err] eqn:Happly.
    assert (err ≠ Some ErrBufferShort) as Hne'.
    { intros ->. by apply apply_loop_error in Happly as [a ?]. }
    destruct (File.script wal1) as [|[|n c] [|[|n' c'] tl]]; cbn in Hc;
      injection Hc as _ Herr'; congruence.
Qed.

Lemma Commit_buffer_short_log_witness :
  ∃ entries j kr,
    entries ≡ₚ map_to_list (Txn.writeSet demo_oversized)
    ∧ entries !! j = Some kr ∧ ¬ fits kr.2
    ∧ File.data (Txn.wal demo_oversized) =
        File.data (Txn.wal demo_oversized)
          ++ concat (map (λ kr, RecordLog_wire kr.2) (take j entries)).
Proof.
  apply (Commit_buffer_short_log [] [] demo_oversized demo_oversized).
  vm_compute. reflexivity.
Defined.
